(** * A model of the chat client in [src/App.jsx]

    The client is a React single-page application made of one custom hook
    ([useAuth]) and three components ([App], [AuthScreen], [ChatApp]).  The
    development below embeds it shallowly:

    - component state (every [useState] cell) is a record, one record per
      component instance, and every call of [useAuth] owns its own cells;
    - [localStorage] and request headers are finite maps;
    - an [async] function is cut at its [await fetch(...)]: the part before
      the cut issues a request and leaves a continuation in flight, the part
      after the cut runs when the response event is delivered;
    - user gestures, page loads and responses are the events of a
      deterministic, total step function on the page. *)

From Stdlib Require Import NArith.
From stdpp Require Import base option list strings gmap.

Set Default Proof Using "Type".

(** ** JavaScript strings *)

(** A JavaScript string is a sequence of UTF-16 code units. *)
Definition jsstring : Type := list N.

(** The code units of an ASCII literal of the source. *)
Definition lit (s : string) : jsstring :=
  Ascii.N_of_ascii <$> String.list_ascii_of_string s.

(** [!!s] on a string: only the empty string is falsy. *)
Definition truthy (s : jsstring) : bool :=
  match s with [] => false | _ :: _ => true end.

(** [a || b] on strings. *)
Definition or_else (a b : jsstring) : jsstring :=
  if truthy a then a else b.

(** The code units [String.prototype.trim] strips: ECMAScript's WhiteSpace
    (TAB, VT, FF, SP, NBSP, ZWNBSP and the category Zs) and LineTerminator
    (LF, CR, LS, PS). *)
Definition isWhiteSpace (c : N) : bool :=
  ((c =? 0x0009) || (c =? 0x000A) || (c =? 0x000B) || (c =? 0x000C)
   || (c =? 0x000D) || (c =? 0x0020) || (c =? 0x00A0) || (c =? 0x1680)
   || ((0x2000 <=? c) && (c <=? 0x200A))
   || (c =? 0x2028) || (c =? 0x2029) || (c =? 0x202F) || (c =? 0x205F)
   || (c =? 0x3000) || (c =? 0xFEFF))%N.

Fixpoint trimStart (s : jsstring) : jsstring :=
  match s with
  | [] => []
  | c :: s' => if isWhiteSpace c then trimStart s' else s
  end.

Definition trimEnd (s : jsstring) : jsstring :=
  reverse (trimStart (reverse s)).

Definition trim (s : jsstring) : jsstring := trimEnd (trimStart s).

(** "Empty or whitespace-only", in the words of the specification. *)
Definition blank (s : jsstring) : Prop :=
  Forall (λ c, isWhiteSpace c = true) s.

(** ** Data exchanged with the backend *)

(** Identifiers are taken to be numbers, as in [/api/messages/5] of the
    specification's scenario. *)
Module User.
Record t : Type := mk
  { id : N; username : jsstring; email : jsstring; status : jsstring }.
End User.

Module Message.
Record t : Type := mk
  { id : N; senderId : N; receiverId : N; message : jsstring }.
End Message.

#[global] Instance User_eq_dec : EqDecision User.t.
Proof. solve_decision. Defined.

#[global] Instance Message_eq_dec : EqDecision Message.t.
Proof. solve_decision. Defined.

(** The value handed to [JSON.stringify] as a request body. *)
#[warnings="-register-all"]
Inductive Json : Type :=
  | JStr (s : jsstring)
  | JNum (n : N)
  | JObj (fields : list (string * Json)).

Inductive Method : Type := GET | POST.

(** The request target, relative to [API_BASE]. *)
Inductive Path : Type :=
  | ApiAuthLogin              (* /api/auth/login *)
  | ApiAuthRegister           (* /api/auth/register *)
  | ApiUsers                  (* /api/users *)
  | ApiMessagesOf (id : N)    (* /api/messages/${activeUser.id} *)
  | ApiMessages.              (* /api/messages *)

Record Request : Type := mkRequest
  { path : Path;
    method : Method;
    req_headers : gmap string jsstring;
    body : option Json }.

(** What a [fetch] promise settles to.  [Rejected] covers a network failure
    and a body that [res.json()] cannot parse; [Resolved ok data] is a
    response with [res.ok = ok] whose parsed body is [data]. *)
Inductive Data : Type :=
  | DToken (access_token : jsstring)
  | DUsers (l : list User.t)
  | DMessages (l : list Message.t)
  | DMessage (m : Message.t).

Inductive Response : Type :=
  | Rejected (msg : jsstring)
  | Resolved (ok : bool) (data : Data).

(** ** [useAuth] (lines 5-47) *)

Module useAuth.

(** The two [useState] cells of one call site of the hook. *)
Record t : Type := mk { token : jsstring; user : option User.t }.

(** [localStorage.getItem('token') || ''] and [useState(null)]. *)
Definition init (localStorage : gmap string jsstring) : t :=
  {| token := or_else (default [] (localStorage !! "token")) [];
     user := None |}.

(** Lines 9-12. *)
Definition headers (token : jsstring) : gmap string jsstring :=
  {[ "Content-Type" := lit "application/json" ]}
  ∪ (if truthy token
     then {[ "Authorization" := lit "Bearer " ++ token ]}
     else ∅).

(** The [fetch] of [login], lines 15-19. *)
Definition login_fetch (email password : jsstring) : Request :=
  {| path := ApiAuthLogin;
     method := POST;
     req_headers := {[ "Content-Type" := lit "application/json" ]};
     body := Some (JObj [("email", JStr email);
                         ("password", JStr password)]) |}.

(** The [fetch] of [register], lines 28-32. *)
Definition register_fetch (username email password : jsstring) : Request :=
  {| path := ApiAuthRegister;
     method := POST;
     req_headers := {[ "Content-Type" := lit "application/json" ]};
     body := Some (JObj [("username", JStr username);
                         ("email", JStr email);
                         ("password", JStr password)]) |}.

(** How the rest of [login] or [register] ends: it throws an [Error] with
    a message, or it returns after writing [localStorage] and the hook's
    token. *)
Inductive outcome : Type :=
  | Threw (message : jsstring)
  | Returned (localStorage : gmap string jsstring) (h : t).

(** The rest of [login], lines 20-24, once the response is there.  The
    body is read as [{access_token}]; another shape is outside the
    backend's contract and is not modelled ([None]). *)
Definition login (localStorage : gmap string jsstring) (h : t)
    (res : Response) : option outcome :=
  match res with
  | Rejected msg => Some (Threw msg)
  | Resolved false _ => Some (Threw (lit "Login failed"))
  | Resolved true (DToken access_token) =>
      Some (Returned (<["token" := access_token]> localStorage)
                     {| token := access_token; user := user h |})
  | Resolved true _ => None
  end.

(** The rest of [register], lines 33-37. *)
Definition register (localStorage : gmap string jsstring) (h : t)
    (res : Response) : option outcome :=
  match res with
  | Rejected msg => Some (Threw msg)
  | Resolved false _ => Some (Threw (lit "Register failed"))
  | Resolved true (DToken access_token) =>
      Some (Returned (<["token" := access_token]> localStorage)
                     {| token := access_token; user := user h |})
  | Resolved true _ => None
  end.

(** Lines 40-44. *)
Definition logout (localStorage : gmap string jsstring) (h : t)
    : gmap string jsstring * t :=
  (delete "token" localStorage, {| token := []; user := None |}).

End useAuth.

(** ** In-flight requests *)

(** What remains to run of an [async] function suspended at [await fetch].
    [AwaitUsers] keeps the [activeUser] that the closure of [loadUsers]
    captured when its effect ran. *)
Inductive Cont : Type :=
  | AwaitLogin                                (* submit, in login, line 15 *)
  | AwaitRegister                             (* submit, in register, line 28 *)
  | AwaitUsers (activeUser : option User.t)   (* loadUsers, line 118 *)
  | AwaitMessages                             (* load, line 129 *)
  | AwaitSent.                                (* send, line 140 *)

(** ** [AuthScreen] (lines 49-105) *)

Inductive Mode : Type := ModeLogin | ModeRegister.

Module AuthScreen.

Record t : Type := mk
  { mode : Mode;
    username : jsstring;
    email : jsstring;
    password : jsstring;
    loading : bool;
    error : jsstring;
    auth : useAuth.t }.

(** Lines 50-56. *)
Definition init (localStorage : gmap string jsstring) : t :=
  {| mode := ModeLogin; username := []; email := []; password := [];
     loading := false; error := []; auth := useAuth.init localStorage |}.

Definition setMode (m : Mode) (a : t) : t :=
  mk m (username a) (email a) (password a) (loading a) (error a) (auth a).
Definition setUsername (v : jsstring) (a : t) : t :=
  mk (mode a) v (email a) (password a) (loading a) (error a) (auth a).
Definition setEmail (v : jsstring) (a : t) : t :=
  mk (mode a) (username a) v (password a) (loading a) (error a) (auth a).
Definition setPassword (v : jsstring) (a : t) : t :=
  mk (mode a) (username a) (email a) v (loading a) (error a) (auth a).
Definition setLoading (v : bool) (a : t) : t :=
  mk (mode a) (username a) (email a) (password a) v (error a) (auth a).
Definition setError (v : jsstring) (a : t) : t :=
  mk (mode a) (username a) (email a) (password a) (loading a) v (auth a).
Definition setAuth (h : useAuth.t) (a : t) : t :=
  mk (mode a) (username a) (email a) (password a) (loading a) (error a) h.

(** [submit] up to its [await], lines 59-67: the new state, the request
    and what is left to run. *)
Definition submit (a : t) : t * (Request * Cont) :=
  let a' := setError [] (setLoading true a) in
  match mode a with
  | ModeLogin =>
      (a', (useAuth.login_fetch (email a) (password a), AwaitLogin))
  | ModeRegister =>
      (a', (useAuth.register_fetch (username a) (email a) (password a),
            AwaitRegister))
  end.

(** Line 99: the paragraph with the error text is rendered when [error]
    is truthy. *)
Definition shows_error (a : t) : bool := truthy (error a).

End AuthScreen.

(** ** [ChatApp] (lines 107-186) *)

Module ChatApp.

Record t : Type := mk
  { auth : useAuth.t;
    users : list User.t;
    activeUser : option User.t;
    messages : list Message.t;
    text : jsstring }.

(** Lines 108-112. *)
Definition init (localStorage : gmap string jsstring) : t :=
  {| auth := useAuth.init localStorage; users := []; activeUser := None;
     messages := []; text := [] |}.

Definition token (c : t) : jsstring := useAuth.token (auth c).
Definition headers (c : t) : gmap string jsstring :=
  useAuth.headers (token c).

Definition setAuth (h : useAuth.t) (c : t) : t :=
  mk h (users c) (activeUser c) (messages c) (text c).
Definition setUsers (v : list User.t) (c : t) : t :=
  mk (auth c) v (activeUser c) (messages c) (text c).
Definition setActiveUser (v : option User.t) (c : t) : t :=
  mk (auth c) (users c) v (messages c) (text c).
Definition setMessages (v : list Message.t) (c : t) : t :=
  mk (auth c) (users c) (activeUser c) v (text c).
Definition setText (v : jsstring) (c : t) : t :=
  mk (auth c) (users c) (activeUser c) (messages c) v.

(** The body of the effect at lines 115-124, up to the [await]. *)
Definition loadUsers (c : t) : list (Request * Cont) :=
  if negb (truthy (token c)) then []
  else [( {| path := ApiUsers; method := GET;
             req_headers := ∅; body := None |},
          AwaitUsers (activeUser c) )].

(** The body of the effect at lines 126-135, up to the [await]. *)
Definition load (c : t) : list (Request * Cont) :=
  match activeUser c with
  | Some u =>
      if negb (truthy (token c)) then []
      else [( {| path := ApiMessagesOf (User.id u); method := GET;
                 req_headers := headers c; body := None |},
              AwaitMessages )]
  | None => []
  end.

(** The effects that run after a render: all of them after the first one
    ([prev = None]), afterwards those with a changed dependency, [token]
    at line 124 and [token, activeUser] at line 135.  React compares
    dependencies with [Object.is]; on the user objects this is rendered by
    equality of their fields, which is the same as long as the backend
    lists no user twice. *)
Definition effects (prev : option t) (c : t) : list (Request * Cont) :=
  match prev with
  | None => loadUsers c ++ load c
  | Some c0 =>
      (if decide (token c0 = token c) then [] else loadUsers c)
      ++ (if decide (token c0 = token c ∧ activeUser c0 = activeUser c)
          then [] else load c)
  end.

(** The rest of [loadUsers], lines 119-121. *)
Definition loadUsers_resume (closure_activeUser : option User.t)
    (data : list User.t) (c : t) : t :=
  let c' := setUsers data c in
  match closure_activeUser, data with
  | None, first :: _ => setActiveUser (Some first) c'
  | _, _ => c'
  end.

(** The rest of [load], line 131 (the scroll of line 132 only moves the
    viewport). *)
Definition load_resume (data : list Message.t) (c : t) : t :=
  setMessages data c.

(** [send] up to its [await], lines 138-144. *)
Definition send (c : t) : option (Request * Cont) :=
  match activeUser c with
  | Some u =>
      if negb (truthy (trim (text c))) then None
      else Some ( {| path := ApiMessages; method := POST;
                     req_headers := headers c;
                     body := Some (JObj [("receiverId", JNum (User.id u));
                                         ("message", JStr (text c))]) |},
                  AwaitSent )
  | None => None
  end.

(** The rest of [send], lines 145-147. *)
Definition send_resume (msg : Message.t) (c : t) : t :=
  setText [] (setMessages (messages c ++ [msg]) c).

(** The click handler of a contact button, line 160; the buttons are the
    elements of [users]. *)
Definition click (i : nat) (c : t) : t :=
  match users c !! i with
  | Some u => setActiveUser (Some u) c
  | None => c
  end.

(** Line 172. *)
Definition header (c : t) : jsstring :=
  match activeUser c with
  | Some u => User.username u
  | None => lit "Select a contact"
  end.

End ChatApp.

(** ** [App] (lines 188-198) *)

Inductive View : Type := ShowAuthScreen | ShowChatApp.

Module App.

Record t : Type := mk { auth : useAuth.t; ready : bool }.

Definition token (a : t) : jsstring := useAuth.token (auth a).

(** Lines 189-190. *)
Definition init (localStorage : gmap string jsstring) : t :=
  let h := useAuth.init localStorage in
  {| auth := h; ready := truthy (useAuth.token h) |}.

Definition setReady (v : bool) (a : t) : t := mk (auth a) v.

(** The effect at lines 192-194. *)
Definition effect (a : t) : t :=
  if truthy (token a) then setReady true a else a.

(** The [onAuthed] callback handed to [AuthScreen], line 196. *)
Definition onAuthed (a : t) : t := setReady true a.

(** Lines 196-197. *)
Definition render (a : t) : View :=
  if negb (ready a) || negb (truthy (token a))
  then ShowAuthScreen else ShowChatApp.

End App.

(** ** The page *)

(** The child that [App] has mounted, with its state. *)
Inductive Screen : Type :=
  | AuthScreenOf (a : AuthScreen.t)
  | ChatAppOf (c : ChatApp.t).

Record Page : Type := mkPage
  { localStorage : gmap string jsstring;
    app : App.t;
    screen : Screen;
    inflight : list (Request * Cont);   (* fetches not settled yet *)
    sent : list Request }.              (* every request issued, oldest first *)

(** Mounting the child that [App] renders; a fresh [ChatApp] runs its
    effects. *)
Definition mount (ls : gmap string jsstring) (a : App.t)
    : Screen * list (Request * Cont) :=
  match App.render a with
  | ShowAuthScreen => (AuthScreenOf (AuthScreen.init ls), [])
  | ShowChatApp =>
      let c := ChatApp.init ls in (ChatAppOf c, ChatApp.effects None c)
  end.

(** After a render of [App]: the child stays as it is when [App] returns
    the same component, otherwise it is replaced by a fresh one. *)
Definition reconcile (ls : gmap string jsstring) (a : App.t) (s : Screen)
    : Screen * list (Request * Cont) :=
  match App.render a, s with
  | ShowAuthScreen, AuthScreenOf _ => (s, [])
  | ShowChatApp, ChatAppOf _ => (s, [])
  | _, _ => mount ls a
  end.

(** Issuing fetches: each is logged and stays in flight. *)
Definition issue (new : list (Request * Cont)) (p : Page) : Page :=
  {| localStorage := localStorage p; app := app p; screen := screen p;
     inflight := inflight p ++ new; sent := sent p ++ (new.*1) |}.

(** A page load over the given storage: [App] mounts, runs its effect and
    mounts its child. *)
Definition boot (ls : gmap string jsstring) : Page :=
  let a := App.effect (App.init ls) in
  let '(s, new) := mount ls a in
  {| localStorage := ls; app := a; screen := s;
     inflight := new; sent := new.*1 |}.

(** A new state of the mounted [ChatApp]: it is rendered and the effects
    with a changed dependency run. *)
Definition update_chat (c0 c : ChatApp.t) (p : Page) : Page :=
  issue (ChatApp.effects (Some c0) c)
    {| localStorage := localStorage p; app := app p; screen := ChatAppOf c;
       inflight := inflight p; sent := sent p |}.

Definition update_auth (a : AuthScreen.t) (p : Page) : Page :=
  {| localStorage := localStorage p; app := app p; screen := AuthScreenOf a;
     inflight := inflight p; sent := sent p |}.

(** The rest of [submit], lines 68-73, given how [login] or [register]
    ended: [catch] shows the message, otherwise [onAuthed] runs; [finally]
    resets [loading]; then [App] renders again. *)
Definition submit_resume (a : AuthScreen.t) (o : useAuth.outcome) (p : Page)
    : Page :=
  match o with
  | useAuth.Threw message =>
      update_auth
        (AuthScreen.setLoading false
           (AuthScreen.setError
              (or_else message (lit "Something went wrong")) a)) p
  | useAuth.Returned ls h =>
      let a' := AuthScreen.setLoading false (AuthScreen.setAuth h a) in
      let app' := App.onAuthed (app p) in
      let '(s, new) := reconcile ls app' (AuthScreenOf a') in
      issue new
        {| localStorage := ls; app := app'; screen := s;
           inflight := inflight p; sent := sent p |}
  end.

Inductive Event : Type :=
  | Reload                                  (* the page is loaded again *)
  | ClickMode (m : Mode)                    (* lines 81-82 *)
  | ChangeUsername (v : jsstring)           (* line 88 *)
  | ChangeEmail (v : jsstring)              (* line 93 *)
  | ChangePassword (v : jsstring)           (* line 97 *)
  | SubmitAuth                              (* line 84 *)
  | ClickLogout                             (* line 156 *)
  | ClickContact (i : nat)                  (* line 160 *)
  | ChangeText (v : jsstring)               (* line 180 *)
  | SubmitSend                              (* line 179 *)
  | Settle (i : nat) (res : Response).      (* the i-th fetch in flight settles *)

(** The fetch at position [i] settles with [res]: its continuation runs on
    the component that awaits it and leaves the list.  A rejected fetch of
    [ChatApp] has no handler.  A body of another shape than the endpoint's
    (see [shape_ok] for what the code does with it), and a continuation
    whose component is not the mounted one (there is none, see
    [reachable_inv]), are outside the model: the page is returned as it
    is. *)
Definition settle (i : nat) (res : Response) (p : Page) : Page :=
  match inflight p !! i with
  | None => p
  | Some (_, k) =>
      let q :=
        {| localStorage := localStorage p; app := app p; screen := screen p;
           inflight := delete i (inflight p); sent := sent p |} in
      match k, screen p with
      | AwaitLogin, AuthScreenOf a =>
          match useAuth.login (localStorage p) (AuthScreen.auth a) res with
          | Some o => submit_resume a o q
          | None => p
          end
      | AwaitRegister, AuthScreenOf a =>
          match useAuth.register (localStorage p) (AuthScreen.auth a) res with
          | Some o => submit_resume a o q
          | None => p
          end
      | AwaitUsers closure_activeUser, ChatAppOf c =>
          match res with
          | Rejected _ => q
          | Resolved _ (DUsers data) =>
              update_chat c (ChatApp.loadUsers_resume closure_activeUser data c) q
          | Resolved _ _ => p
          end
      | AwaitMessages, ChatAppOf c =>
          match res with
          | Rejected _ => q
          | Resolved _ (DMessages data) =>
              update_chat c (ChatApp.load_resume data c) q
          | Resolved _ _ => p
          end
      | AwaitSent, ChatAppOf c =>
          match res with
          | Rejected _ => q
          | Resolved _ (DMessage msg) =>
              update_chat c (ChatApp.send_resume msg c) q
          | Resolved _ _ => p
          end
      | _, _ => p
      end
  end.

(** One event on the page.  A gesture on a control that is not rendered
    does nothing.  The browser's check of the [required] inputs before
    [submit] is called is left out, so the model submits at least whenever
    the page does. *)
Definition step (p : Page) (e : Event) : Page :=
  match e, screen p with
  | Reload, _ =>
      let b := boot (localStorage p) in
      {| localStorage := localStorage b; app := app b; screen := screen b;
         inflight := inflight b; sent := sent p ++ sent b |}
  | ClickMode m, AuthScreenOf a => update_auth (AuthScreen.setMode m a) p
  | ChangeUsername v, AuthScreenOf a =>
      match AuthScreen.mode a with
      | ModeRegister => update_auth (AuthScreen.setUsername v a) p
      | ModeLogin => p                  (* line 85: the input is not there *)
      end
  | ChangeEmail v, AuthScreenOf a => update_auth (AuthScreen.setEmail v a) p
  | ChangePassword v, AuthScreenOf a =>
      update_auth (AuthScreen.setPassword v a) p
  | SubmitAuth, AuthScreenOf a =>
      let '(a', new) := AuthScreen.submit a in
      issue [new] (update_auth a' p)
  | ClickLogout, ChatAppOf c =>
      let '(ls, h) := useAuth.logout (localStorage p) (ChatApp.auth c) in
      update_chat c (ChatApp.setAuth h c)
        {| localStorage := ls; app := app p; screen := screen p;
           inflight := inflight p; sent := sent p |}
  | ClickContact i, ChatAppOf c => update_chat c (ChatApp.click i c) p
  | ChangeText v, ChatAppOf c => update_chat c (ChatApp.setText v c) p
  | SubmitSend, ChatAppOf c =>
      match ChatApp.send c with
      | Some new => issue [new] p
      | None => p
      end
  | Settle i res, _ => settle i res p
  | _, _ => p
  end.

Definition run (p : Page) (es : list Event) : Page := foldl step p es.

(** The requests that an event makes the page issue. *)
Definition issued (p : Page) (e : Event) : list Request :=
  drop (length (sent p)) (sent (step p e)).

(** The pages that a browser session can be in. *)
Inductive reachable : Page → Prop :=
  | reachable_boot ls : reachable (boot ls)
  | reachable_step p e : reachable p → reachable (step p e).

(** The endpoints of section 6 that require the bearer credential. *)
Definition authenticated (r : Request) : bool :=
  match path r with
  | ApiMessagesOf _ | ApiMessages => true
  | _ => false
  end.

Definition is_AuthScreen (s : Screen) : bool :=
  match s with AuthScreenOf _ => true | ChatAppOf _ => false end.

Definition is_ChatApp (s : Screen) : bool :=
  match s with ChatAppOf _ => true | AuthScreenOf _ => false end.

(** ** Invariants of the reachable pages *)

#[global] Instance Path_eq_dec : EqDecision Path.
Proof. solve_decision. Defined.

(** A continuation in flight belongs to the mounted component, and the
    closure of [loadUsers] was taken while no contact was active. *)
Definition owned (s : Screen) (k : Cont) : Prop :=
  match s, k with
  | AuthScreenOf _, (AwaitLogin | AwaitRegister) => True
  | ChatAppOf _, (AwaitUsers None | AwaitMessages | AwaitSent) => True
  | _, _ => False
  end.

(** [AuthScreen] is mounted only while the token of [App] is empty;
    [ChatApp] is mounted only while [App] renders it, and its own token is
    the stored one, or is empty when there is none. *)
Definition screen_ok (p : Page) : Prop :=
  match screen p with
  | AuthScreenOf _ => App.token (app p) = []
  | ChatAppOf c =>
      App.render (app p) = ShowChatApp
      ∧ localStorage p !! "token"
        = if truthy (ChatApp.token c) then Some (ChatApp.token c) else None
  end.

Record inv (p : Page) : Prop := mk_inv
  { inv_screen : screen_ok p;
    inv_owned : Forall (λ rk, owned (screen p) rk.2) (inflight p) }.

(** The number of contact-list fetches among some requests. *)
Definition users_fetches (l : list Request) : nat :=
  length (filter (λ r, path r = ApiUsers) l).

(** A message of the conversation with [u]. *)
Definition of_conversation (u : User.t) (m : Message.t) : Prop :=
  Message.senderId m = User.id u ∨ Message.receiverId m = User.id u.

(** The shape of the requests that a step other than a page load issues:
    at most one, never the contact list, and when it goes to an
    authenticated endpoint it carries the headers of the mounted
    [ChatApp]. *)
Definition one_fetch (p : Page) (new : list Request) : Prop :=
  new = []
  ∨ ∃ r, new = [r]
       ∧ path r ≠ ApiUsers
       ∧ (authenticated r = true →
          ∃ c, screen p = ChatAppOf c ∧ req_headers r = ChatApp.headers c).

(** ** Sample data *)

Definition alice : User.t :=
  User.mk 5 (lit "alice") (lit "alice@example.com") (lit "online").
Definition bob : User.t :=
  User.mk 7 (lit "bob") (lit "bob@example.com") (lit "offline").

(** A message that [alice] sent to the logged-in user, whose id is 1. *)
Definition from_alice : Message.t := Message.mk 100 5 1 (lit "hello").

(** The message that the backend creates for a send to [alice]. *)
Definition to_alice : Message.t := Message.mk 101 1 5 (lit " hi ").

(** The logged-out page after the credentials of section 8 were typed and
    submitted. *)
Definition login_submitted : Page :=
  run (boot ∅)
    [ChangeEmail (lit "a@b.com"); ChangePassword (lit "x"); SubmitAuth].

(** The chat page over a stored token once the contact list has arrived. *)
Definition chat_loaded : Page :=
  run (boot {[ "token" := lit "tok1" ]})
    [Settle 0 (Resolved true (DUsers [alice; bob]))].

(** ** Further invariants *)

Definition awaits_users (k : Cont) : bool :=
  match k with AwaitUsers _ => true | _ => false end.

(** The number of contact-list fetches still in flight. *)
Definition pending_users (l : list (Request * Cont)) : nat :=
  length (filter (λ rk, awaits_users rk.2 = true) l).

(** On the auth screen the form is busy only while a submission is in
    flight.  In the chat view at most one contact-list fetch is in flight,
    the list is still empty while it is, and the active contact is one of
    the listed ones. *)
Definition widgets_ok (p : Page) : Prop :=
  match screen p with
  | AuthScreenOf a => AuthScreen.loading a = true → inflight p ≠ []
  | ChatAppOf c =>
      pending_users (inflight p) ≤ 1
      ∧ (pending_users (inflight p) = 1 → ChatApp.users c = [])
      ∧ ∀ u, ChatApp.activeUser c = Some u → u ∈ ChatApp.users c
  end.

(** ** Responses within the backend's contract *)

(** The settled fetch has an outcome that the continuation [k] can read: a
    rejection, a refusal of a login or register (its body is not read), or
    a body of the shape that section 6 of the specification gives for the
    endpoint.  On any other body the code goes on without a shape test
    (a non-array handed to [setUsers] or [setMessages] makes the next render
    throw and the page go blank, a login body without [access_token] stores
    ["undefined"]); the model does not follow it there. *)
Definition shape_ok (k : Cont) (res : Response) : bool :=
  match res, k with
  | Rejected _, _ => true
  | Resolved false _, (AwaitLogin | AwaitRegister) => true
  | Resolved true (DToken _), (AwaitLogin | AwaitRegister) => true
  | Resolved _ (DUsers _), AwaitUsers _ => true
  | Resolved _ (DMessages _), AwaitMessages => true
  | Resolved _ (DMessage _), AwaitSent => true
  | _, _ => false
  end.

(** Every event but a response is within the contract; a response is when
    its body suits the fetch that it settles. *)
Definition on_contract (p : Page) (e : Event) : bool :=
  match e with
  | Settle i res =>
      match inflight p !! i with
      | Some (_, k) => shape_ok k res
      | None => true
      end
  | _ => true
  end.

Fixpoint runs_on_contract (p : Page) (es : list Event) : bool :=
  match es with
  | [] => true
  | e :: es' => on_contract p e && runs_on_contract (step p e) es'
  end.

(** The pages of the sessions in which the backend kept to its contract. *)
Inductive conforming : Page → Prop :=
  | conforming_boot ls : conforming (boot ls)
  | conforming_step p e :
      conforming p → on_contract p e = true → conforming (step p e).

(** * Properties *)

(** ** Strings *)

Section strings.
Implicit Types s : jsstring.

Lemma truthy_true s : truthy s = true ↔ s ≠ [].
Proof. destruct s; simpl; split; intros; congruence. Qed.

Lemma truthy_false s : truthy s = false ↔ s = [].
Proof. destruct s; simpl; split; intros; congruence. Qed.

Lemma or_else_nil s : or_else s [] = s.
Proof. by destruct s. Qed.

Lemma blank_app s1 s2 : blank (s1 ++ s2) ↔ blank s1 ∧ blank s2.
Proof. apply Forall_app. Qed.

Lemma blank_reverse s : blank (reverse s) ↔ blank s.
Proof.
  unfold blank. rewrite !Forall_forall.
  by setoid_rewrite elem_of_reverse.
Qed.

Lemma trimStart_nil s : trimStart s = [] ↔ blank s.
Proof.
  induction s as [|c s IH]; simpl.
  - split; [constructor | done].
  - destruct (isWhiteSpace c) eqn:Hc.
    + rewrite IH. split; [by constructor | by inversion 1].
    + split; [done | inversion 1; congruence].
Qed.

(** What [trimStart] leaves does not start with white space. *)
Lemma trimStart_blank s : blank (trimStart s) → trimStart s = [].
Proof.
  induction s as [|c s IH]; simpl; [done |].
  destruct (isWhiteSpace c) eqn:Hc; [done |].
  inversion 1; congruence.
Qed.

Lemma trimEnd_nil s : trimEnd s = [] ↔ blank s.
Proof.
  unfold trimEnd. rewrite <- (blank_reverse s), <- trimStart_nil.
  split; intros H.
  - by rewrite <- (reverse_involutive (trimStart _)), H.
  - by rewrite H.
Qed.

(** The guard [!text.trim()] of [send] is the specification's "empty or
    whitespace-only". *)
Lemma trim_nil s : trim s = [] ↔ blank s.
Proof.
  unfold trim. rewrite trimEnd_nil, <- (trimStart_nil s).
  split; [apply trimStart_blank | intros ->; constructor].
Qed.

Lemma trim_truthy s : truthy (trim s) = true ↔ ¬ blank s.
Proof. by rewrite truthy_true, trim_nil. Qed.

End strings.

(** ** Request headers *)

Lemma headers_content_type token :
  useAuth.headers token !! "Content-Type" = Some (lit "application/json").
Proof.
  unfold useAuth.headers. apply lookup_union_Some_l.
  by rewrite lookup_singleton_eq.
Qed.

Lemma headers_authorization token :
  useAuth.headers token !! "Authorization"
  = if truthy token then Some (lit "Bearer " ++ token) else None.
Proof.
  unfold useAuth.headers. rewrite lookup_union_r by done.
  destruct (truthy token); [by rewrite lookup_singleton_eq | done].
Qed.

Lemma headers_other token (k : string) :
  k ≠ "Content-Type" → k ≠ "Authorization" →
  useAuth.headers token !! k = None.
Proof.
  intros H1 H2. unfold useAuth.headers.
  rewrite lookup_union_r by (by rewrite lookup_singleton_ne).
  destruct (truthy token); [by rewrite lookup_singleton_ne | done].
Qed.

Lemma init_token_stored (ls : gmap string jsstring) :
  ls !! "token"
  = if truthy (useAuth.token (useAuth.init ls))
    then Some (useAuth.token (useAuth.init ls))
    else ls !! "token".
Proof.
  simpl. rewrite or_else_nil.
  destruct (ls !! "token") as [[|c t]|]; done.
Qed.

(** ** The invariants hold on every reachable page *)

Lemma owned_chat c c' k : owned (ChatAppOf c) k → owned (ChatAppOf c') k.
Proof. done. Qed.

Lemma owned_auth a a' k : owned (AuthScreenOf a) k → owned (AuthScreenOf a') k.
Proof. done. Qed.

(** On a [ChatApp] whose token stays or is cleared, the only effect that can
    run is the history fetch for the active contact. *)
Lemma effects_update (c0 c : ChatApp.t) :
  ChatApp.token c = ChatApp.token c0 ∨ ChatApp.token c = [] →
  ChatApp.effects (Some c0) c = []
  ∨ ∃ u, ChatApp.activeUser c = Some u
       ∧ ChatApp.activeUser c0 ≠ Some u
       ∧ ChatApp.token c = ChatApp.token c0
       ∧ truthy (ChatApp.token c) = true
       ∧ ChatApp.effects (Some c0) c
         = [(mkRequest (ApiMessagesOf (User.id u)) GET
               (ChatApp.headers c) None, AwaitMessages)].
Proof.
  intros Htok. unfold ChatApp.effects, ChatApp.loadUsers, ChatApp.load.
  destruct (truthy (ChatApp.token c)) eqn:Ht; simpl.
  - destruct Htok as [Htok|Htok]; [|by rewrite Htok in Ht].
    rewrite decide_True by done.
    destruct (decide _) as [_|Hne]; [by left |]. simpl.
    destruct (ChatApp.activeUser c) as [u|] eqn:Hu; [|by left].
    right. exists u. repeat split; try done.
    intros Hu0. apply Hne. by rewrite Hu0.
  - left. repeat case_decide; by destruct (ChatApp.activeUser c).
Qed.

Lemma click_token (i : nat) (c : ChatApp.t) :
  ChatApp.token (ChatApp.click i c) = ChatApp.token c.
Proof. unfold ChatApp.click. by destruct (ChatApp.users c !! i). Qed.

Lemma loadUsers_resume_token cl data (c : ChatApp.t) :
  ChatApp.token (ChatApp.loadUsers_resume cl data c) = ChatApp.token c.
Proof. by destruct cl, data. Qed.

Lemma inv_update_chat (c0 c : ChatApp.t) (p : Page) :
  App.render (app p) = ShowChatApp →
  localStorage p !! "token"
  = (if truthy (ChatApp.token c) then Some (ChatApp.token c) else None) →
  ChatApp.token c = ChatApp.token c0 ∨ ChatApp.token c = [] →
  Forall (λ rk, owned (ChatAppOf c0) rk.2) (inflight p) →
  inv (update_chat c0 c p).
Proof.
  intros Hview Hls Htok Hown. unfold update_chat, issue.
  split; [by split |].
  destruct (effects_update c0 c Htok) as [->|(u & _ & _ & _ & _ & ->)];
    simpl; apply Forall_app; (split; [done | by repeat constructor]).
Qed.

Lemma boot_auth (ls : gmap string jsstring) :
  truthy (useAuth.token (useAuth.init ls)) = false →
  boot ls = mkPage ls (App.init ls) (AuthScreenOf (AuthScreen.init ls)) [] [].
Proof.
  intros Ht.
  unfold boot, mount, App.effect, App.render, App.token, App.init.
  by destruct (useAuth.init ls) as [[|c tok] usr].
Qed.

Lemma boot_chat (ls : gmap string jsstring) :
  truthy (useAuth.token (useAuth.init ls)) = true →
  boot ls
  = mkPage ls (App.mk (useAuth.init ls) true) (ChatAppOf (ChatApp.init ls))
      [(mkRequest ApiUsers GET ∅ None, AwaitUsers None)]
      [mkRequest ApiUsers GET ∅ None].
Proof.
  intros Ht.
  unfold boot, mount, App.effect, App.render, App.token, App.init,
    ChatApp.effects, ChatApp.loadUsers, ChatApp.load, ChatApp.token,
    ChatApp.init.
  by destruct (useAuth.init ls) as [[|c tok] usr].
Qed.

Lemma inv_boot (ls : gmap string jsstring) : inv (boot ls).
Proof.
  destruct (truthy (useAuth.token (useAuth.init ls))) eqn:Ht.
  - rewrite boot_chat by done. split; [|by repeat constructor].
    split; simpl.
    + unfold App.render, App.token. simpl in *. by rewrite Ht.
    + rewrite (init_token_stored ls) at 1.
      unfold ChatApp.token. simpl in *. by rewrite Ht.
  - rewrite boot_auth by done. split; [|by constructor].
    by apply truthy_false.
Qed.

Lemma inv_submit_resume (a : AuthScreen.t) (o : useAuth.outcome) (p : Page) :
  App.token (app p) = [] →
  Forall (λ rk, owned (AuthScreenOf a) rk.2) (inflight p) →
  inv (submit_resume a o p).
Proof.
  intros Htok Hown. destruct o as [message|ls h]; simpl.
  - by split.
  - unfold reconcile, App.render, App.onAuthed, App.token in *. simpl.
    rewrite Htok. simpl. split; [done |]. simpl. by rewrite app_nil_r.
Qed.

Lemma inv_settle (i : nat) (res : Response) (p : Page) :
  inv p → inv (settle i res p).
Proof.
  intros Hinv. pose proof Hinv as [Hscr Hown]. unfold settle.
  destruct (inflight p !! i) as [[req k]|] eqn:Hi; [|done].
  pose proof (Forall_delete _ _ i Hown) as Hown'.
  unfold screen_ok in Hscr.
  destruct k, (screen p) as [a|c] eqn:Hs; try done.
  - destruct (useAuth.login _ _ _); [|done].
    by apply inv_submit_resume.
  - destruct (useAuth.register _ _ _); [|done].
    by apply inv_submit_resume.
  - destruct Hscr as [Hview Hls].
    destruct res as [msg|ok [t|data|l|m]]; try done.
    apply inv_update_chat; try done.
    + by rewrite loadUsers_resume_token.
    + left. apply loadUsers_resume_token.
  - destruct Hscr as [Hview Hls].
    destruct res as [msg|ok [t|data|l|m]]; try done.
    apply inv_update_chat; by try left.
  - destruct Hscr as [Hview Hls].
    destruct res as [msg|ok [t|data|l|m]]; try done.
    apply inv_update_chat; by try left.
Qed.

Lemma inv_step (p : Page) (e : Event) : inv p → inv (step p e).
Proof.
  intros Hinv. destruct e; try (by apply inv_settle).
  { (* Reload *) destruct (inv_boot (localStorage p)) as [Hscr Hown].
    by split. }
  all: pose proof Hinv as [Hscr Hown]; unfold step, screen_ok in *.
  all: destruct (screen p) as [a|c] eqn:Hs; try done.
  all: try (by split).
  - (* ChangeUsername *)
    by destruct (AuthScreen.mode a); [|split].
  - (* SubmitAuth *)
    unfold AuthScreen.submit.
    destruct (AuthScreen.mode a); (split; [done |]); simpl;
      (apply Forall_app; split; [done | by repeat constructor]).
  - (* ClickLogout *)
    destruct Hscr as [Hview Hls]. simpl.
    apply inv_update_chat; simpl; try done.
    + by rewrite lookup_delete_eq.
    + by right.
  - (* ClickContact *)
    destruct Hscr as [Hview Hls].
    apply inv_update_chat; try done.
    + by rewrite click_token.
    + left. apply click_token.
  - (* ChangeText *)
    destruct Hscr as [Hview Hls]. apply inv_update_chat; by try left.
  - (* SubmitSend *)
    unfold ChatApp.send.
    destruct (ChatApp.activeUser c); [|done].
    destruct (negb _); [done |].
    split; [unfold screen_ok; simpl; by rewrite Hs |]. simpl.
    apply Forall_app. split; [by rewrite Hs |]. rewrite Hs.
    by repeat constructor.
Qed.

Lemma reachable_inv (p : Page) : reachable p → inv p.
Proof. induction 1; [apply inv_boot | by apply inv_step]. Qed.

Lemma reachable_run (p : Page) (es : list Event) :
  reachable p → reachable (run p es).
Proof.
  revert p. induction es as [|e es IH]; intros p Hp; [done |].
  apply IH. by constructor.
Qed.

(** ** What a step issues *)

Lemma issued_app (p : Page) (e : Event) (new : list Request) :
  sent (step p e) = sent p ++ new → issued p e = new.
Proof. unfold issued. intros ->. by rewrite drop_app_length. Qed.

Lemma issued_nil (p : Page) (e : Event) :
  sent (step p e) = sent p → issued p e = [].
Proof. intros H. apply issued_app. by rewrite app_nil_r. Qed.

Lemma update_chat_sent (c0 c : ChatApp.t) (p q : Page) :
  screen p = ChatAppOf c0 → sent q = sent p →
  ChatApp.token c = ChatApp.token c0 ∨ ChatApp.token c = [] →
  ∃ new, sent (update_chat c0 c q) = sent p ++ new ∧ one_fetch p new.
Proof.
  intros Hs Hq Htok. unfold update_chat, issue.
  destruct (effects_update c0 c Htok) as [->|(u & _ & _ & Ht & _ & ->)];
    simpl; rewrite Hq; (eexists; split; [done |]).
  - by left.
  - right. eexists. split; [done |]. split; [done |]. intros _.
    exists c0. split; [done |]. simpl. unfold ChatApp.headers. by rewrite Ht.
Qed.

Lemma submit_resume_sent (a : AuthScreen.t) (o : useAuth.outcome) (p : Page) :
  App.token (app p) = [] → sent (submit_resume a o p) = sent p.
Proof.
  intros Htok. destruct o as [msg|ls h]; simpl; [done |].
  unfold reconcile, App.render, App.onAuthed, App.token in *. simpl.
  rewrite Htok. simpl. by rewrite app_nil_r.
Qed.

Lemma settle_sent (i : nat) (res : Response) (p : Page) :
  inv p →
  ∃ new, sent (settle i res p) = sent p ++ new ∧ one_fetch p new.
Proof.
  intros [Hscr Hown]. unfold settle, screen_ok in *.
  assert (∃ new, sent p = sent p ++ new ∧ one_fetch p new) as Hnone.
  { exists []. split; [by rewrite app_nil_r | by left]. }
  destruct (inflight p !! i) as [[req k]|] eqn:Hi; [|done].
  destruct k, (screen p) as [a|c] eqn:Hs; try done.
  - destruct (useAuth.login _ _ _); [|done].
    rewrite submit_resume_sent by done. done.
  - destruct (useAuth.register _ _ _); [|done].
    rewrite submit_resume_sent by done. done.
  - destruct res as [msg|ok [t|data|l|m]]; try done.
    apply (update_chat_sent _ _ p); try done. left. apply loadUsers_resume_token.
  - destruct res as [msg|ok [t|data|l|m]]; try done.
    apply (update_chat_sent _ _ p); try done. by left.
  - destruct res as [msg|ok [t|data|l|m]]; try done.
    apply (update_chat_sent _ _ p); try done. by left.
Qed.

Lemma step_sent (p : Page) (e : Event) :
  inv p → e ≠ Reload →
  ∃ new, sent (step p e) = sent p ++ new ∧ one_fetch p new.
Proof.
  intros Hinv He.
  assert (∃ new, sent p = sent p ++ new ∧ one_fetch p new) as Hnone.
  { exists []. split; [by rewrite app_nil_r | by left]. }
  destruct e; try done; try (by apply settle_sent).
  all: unfold step; destruct (screen p) as [a|c] eqn:Hs; try done.
  - (* ChangeUsername *)
    by destruct (AuthScreen.mode a).
  - (* SubmitAuth *)
    unfold AuthScreen.submit.
    destruct (AuthScreen.mode a); simpl; eexists; (split; [done |]);
      right; eexists; by repeat split.
  - (* ClickLogout *)
    unfold useAuth.logout. cbv beta iota.
    apply (update_chat_sent _ _ p); try done. by right.
  - (* ClickContact *)
    apply (update_chat_sent _ _ p); try done. left. apply click_token.
  - (* ChangeText *)
    apply (update_chat_sent _ _ p); try done. by left.
  - (* SubmitSend *)
    unfold ChatApp.send.
    destruct (ChatApp.activeUser c); [|done].
    destruct (negb _); [done |]. simpl.
    eexists. split; [done |]. right. eexists. repeat split; try done.
    intros _. by exists c.
Qed.

Lemma boot_sent (ls : gmap string jsstring) :
  sent (boot ls)
  = if truthy (useAuth.token (useAuth.init ls))
    then [mkRequest ApiUsers GET ∅ None] else [].
Proof.
  destruct (truthy _) eqn:Ht; [by rewrite boot_chat | by rewrite boot_auth].
Qed.

Lemma boot_screen (ls : gmap string jsstring) :
  is_ChatApp (screen (boot ls)) = truthy (useAuth.token (useAuth.init ls)).
Proof.
  destruct (truthy _) eqn:Ht; [by rewrite boot_chat | by rewrite boot_auth].
Qed.

(** Every request that a reachable page sends to an authenticated endpoint
    while a token is stored carries that token. *)
Lemma issued_bearer (p : Page) (e : Event) (r : Request) (t : jsstring) :
  inv p →
  localStorage p !! "token" = Some t →
  r ∈ issued p e → authenticated r = true →
  req_headers r !! "Authorization" = Some (lit "Bearer " ++ t).
Proof.
  intros Hinv Hls Hr Hauth.
  assert (e = Reload ∨ e ≠ Reload) as [->|He] by (destruct e; auto).
  - revert Hr. rewrite (issued_app _ _ (sent (boot (localStorage p)))) by done.
    rewrite boot_sent. destruct (truthy _).
    + intros ->%list_elem_of_singleton. done.
    + by intros ?%elem_of_nil.
  - destruct (step_sent p e Hinv He) as (new & Hsent & Hnew).
    rewrite (issued_app _ _ _ Hsent) in Hr.
    destruct Hnew as [->|(r' & -> & _ & Hr')]; [by apply elem_of_nil in Hr |].
    apply list_elem_of_singleton in Hr as ->.
    destruct (Hr' Hauth) as (c & Hs & ->).
    destruct Hinv as [Hscr _]. unfold screen_ok in Hscr.
    rewrite Hs, Hls in Hscr. destruct Hscr as [_ Hscr].
    unfold ChatApp.headers. rewrite headers_authorization.
    destruct (truthy (ChatApp.token c)); congruence.
Qed.

(** ** The session token *)

Lemma awaiting_login (p : Page) (i : nat) (req : Request) (k : Cont) :
  inv p → inflight p !! i = Some (req, k) →
  k = AwaitLogin ∨ k = AwaitRegister →
  ∃ a, screen p = AuthScreenOf a ∧ App.token (app p) = [].
Proof.
  intros [Hscr Hown] Hi Hk. unfold screen_ok in Hscr.
  rewrite Forall_lookup in Hown. specialize (Hown _ _ Hi). simpl in Hown.
  destruct (screen p) as [a|c]; [by exists a |].
  by destruct Hk as [-> | ->].
Qed.

(** C1.  When a login is answered with success and a body whose
    [access_token] is [t], the client stores [t] under the key ["token"];
    and from then on, on every page that the session reaches (page loads
    included) while [t] is still the stored token, each request issued to
    an authenticated endpoint (the history of a contact, the sending of a
    message) carries the header [Authorization: Bearer t]. *)
Theorem login_persists_token_and_requests_carry_it
    (p : Page) (i : nat) (req : Request) (t : jsstring) :
  reachable p →
  inflight p !! i = Some (req, AwaitLogin) →
  let p1 := step p (Settle i (Resolved true (DToken t))) in
  localStorage p1 !! "token" = Some t
  ∧ ∀ (es : list Event) (e : Event) (r : Request),
      localStorage (run p1 es) !! "token" = Some t →
      r ∈ issued (run p1 es) e →
      authenticated r = true →
      req_headers r !! "Authorization" = Some (lit "Bearer " ++ t).
Proof.
  intros Hp Hi p1. split.
  - destruct (awaiting_login p i req AwaitLogin) as (a & Hs & Htok);
      [by apply reachable_inv | done | by left |].
    subst p1. unfold step, settle. rewrite Hi, Hs. simpl.
    unfold reconcile, App.render, App.onAuthed, App.token in *. simpl.
    rewrite Htok. simpl. apply lookup_insert_eq.
  - intros es e r Hls Hr Hauth.
    apply (issued_bearer (run p1 es) e r t); try done.
    apply reachable_inv, reachable_run. by constructor.
Qed.

Lemma login_persists_token_and_requests_carry_it_witness :
  let p1 := step login_submitted
              (Settle 0 (Resolved true (DToken (lit "tok1")))) in
  localStorage p1 !! "token" = Some (lit "tok1")
  ∧ ∃ r, r ∈ issued (run p1 [Reload])
                 (Settle 0 (Resolved true (DUsers [alice])))
       ∧ path r = ApiMessagesOf 5
       ∧ req_headers r !! "Authorization" = Some (lit "Bearer tok1").
Proof.
  intros p1.
  destruct (login_persists_token_and_requests_carry_it login_submitted 0
              (useAuth.login_fetch (lit "a@b.com") (lit "x")) (lit "tok1"))
    as [Hstored Hsent].
  - apply reachable_run, reachable_boot.
  - reflexivity.
  - split; [exact Hstored |].
    exists (mkRequest (ApiMessagesOf 5) GET
              (useAuth.headers (lit "tok1")) None).
    assert (mkRequest (ApiMessagesOf 5) GET (useAuth.headers (lit "tok1")) None
            ∈ issued (run p1 [Reload])
                (Settle 0 (Resolved true (DUsers [alice])))) as Hin.
    { vm_compute. left. }
    split; [exact Hin |]. split; [reflexivity |].
    apply (Hsent [Reload] _ _ ltac:(reflexivity) Hin). reflexivity.
Defined.

(** ** Submitting credentials *)

(** C2.  When the backend answers a login or a register submission with a
    non-success status, the auth screen shows an error message ("Login
    failed", respectively "Register failed"), the page stays on the auth
    screen, and no token is stored or set. *)
Theorem refused_submission_shows_error
    (p : Page) (i : nat) (req : Request) (k : Cont) (data : Data) :
  reachable p →
  inflight p !! i = Some (req, k) →
  k = AwaitLogin ∨ k = AwaitRegister →
  let p' := step p (Settle i (Resolved false data)) in
  ∃ a a',
    screen p = AuthScreenOf a
    ∧ screen p' = AuthScreenOf a'
    ∧ AuthScreen.shows_error a' = true
    ∧ AuthScreen.error a'
      = lit (match k with
             | AwaitLogin => "Login failed"
             | _ => "Register failed"
             end)
    ∧ AuthScreen.loading a' = false
    ∧ AuthScreen.auth a' = AuthScreen.auth a
    ∧ localStorage p' = localStorage p
    ∧ app p' = app p
    ∧ App.render (app p') = ShowAuthScreen.
Proof.
  intros Hp Hi Hk p'.
  destruct (awaiting_login p i req k) as (a & Hs & Htok);
    [by apply reachable_inv | done | done |].
  assert (App.render (app p) = ShowAuthScreen) as Hview.
  { unfold App.render, App.token in *. rewrite Htok.
    by destruct (App.ready (app p)). }
  subst p'. unfold step, settle. rewrite Hi, Hs.
  exists a. destruct Hk as [-> | ->]; simpl; eexists; by repeat split.
Qed.

Lemma refused_submission_shows_error_witness :
  let p' := step login_submitted (Settle 0 (Resolved false (DToken []))) in
  ∃ a a',
    screen login_submitted = AuthScreenOf a
    ∧ screen p' = AuthScreenOf a'
    ∧ AuthScreen.shows_error a' = true
    ∧ AuthScreen.error a' = lit "Login failed"
    ∧ AuthScreen.loading a' = false
    ∧ AuthScreen.auth a' = AuthScreen.auth a
    ∧ localStorage p' = localStorage login_submitted
    ∧ app p' = app login_submitted
    ∧ App.render (app p') = ShowAuthScreen.
Proof.
  apply (refused_submission_shows_error login_submitted 0
           (useAuth.login_fetch (lit "a@b.com") (lit "x")) AwaitLogin
           (DToken [])).
  - apply reachable_run, reachable_boot.
  - reflexivity.
  - left. reflexivity.
Defined.

(** Without a page load the mounted component stays the same one, and the
    token of a mounted [ChatApp] can only be cleared. *)
Lemma step_screen (p : Page) (e : Event) :
  inv p → e ≠ Reload →
  match screen p with
  | AuthScreenOf _ => is_AuthScreen (screen (step p e)) = true
  | ChatAppOf c =>
      ∃ c', screen (step p e) = ChatAppOf c'
          ∧ (ChatApp.token c' = ChatApp.token c ∨ ChatApp.token c' = [])
  end.
Proof.
  intros Hinv He. pose proof Hinv as [Hscr Hown].
  unfold screen_ok in Hscr.
  destruct (screen p) as [a|c] eqn:Hs.
  - destruct e; try done; unfold step; rewrite ?Hs; try done.
    + destruct (AuthScreen.mode a); [by rewrite Hs | done].
    + by destruct (AuthScreen.submit a) as [a' new].
    + unfold settle. destruct (inflight p !! i) as [[req k]|]; [|by rewrite Hs].
      rewrite Hs.
      assert (∀ o q, App.token (app q) = [] →
                is_AuthScreen (screen (submit_resume a o q)) = true) as Hres.
      { intros [msg|ls h] q Hq; simpl; [done |].
        unfold reconcile, App.render, App.onAuthed, App.token in *. simpl.
        rewrite Hq. by simpl. }
      destruct k; try (by rewrite Hs).
      * destruct (useAuth.login _ _ _); [by apply Hres | by rewrite Hs].
      * destruct (useAuth.register _ _ _); [by apply Hres | by rewrite Hs].
  - assert (∃ c', screen p = ChatAppOf c'
                ∧ (ChatApp.token c' = ChatApp.token c ∨ ChatApp.token c' = []))
      as Hsame by (exists c; split; [done | by left]).
    destruct e; try done; unfold step; rewrite ?Hs; try (by eexists; split;
      [done | first [by left | by right | left; apply click_token]]).
    + unfold ChatApp.send. destruct (ChatApp.activeUser c); [|done].
      by destruct (negb _).
    + unfold settle. destruct (inflight p !! i) as [[req k]|]; [|done].
      rewrite Hs.
      destruct k; try done; destruct res as [msg|ok [t|data|l|m]]; try done;
        try (by eexists; split; [done | by left]).
      eexists. split; [done |]. left. apply loadUsers_resume_token.
Qed.

(** C3.  With nothing stored the page boots into the auth screen.  After a
    login, and likewise after a register, that the backend answers with
    [{access_token: "tok1"}], the token is stored, the screen's own hook
    holds it and [ready] is set; but the token of [App] comes from its own
    call of [useAuth] and is still empty, so [App] renders the auth screen
    again and the chat view is not shown. *)
Theorem accepted_submission_stays_on_auth_screen :
  is_AuthScreen (screen (boot ∅)) = true
  ∧ (let p := run (boot ∅)
                [ChangeEmail (lit "a@b.com"); ChangePassword (lit "x");
                 SubmitAuth;
                 Settle 0 (Resolved true (DToken (lit "tok1")))] in
     localStorage p !! "token" = Some (lit "tok1")
     ∧ (∃ a, screen p = AuthScreenOf a
           ∧ useAuth.token (AuthScreen.auth a) = lit "tok1")
     ∧ App.ready (app p) = true
     ∧ App.token (app p) = []
     ∧ App.render (app p) = ShowAuthScreen
     ∧ is_ChatApp (screen p) = false)
  ∧ (let p := run (boot ∅)
                [ClickMode ModeRegister; ChangeUsername (lit "a");
                 ChangeEmail (lit "a@b.com"); ChangePassword (lit "x");
                 SubmitAuth;
                 Settle 0 (Resolved true (DToken (lit "tok1")))] in
     localStorage p !! "token" = Some (lit "tok1")
     ∧ App.ready (app p) = true
     ∧ App.render (app p) = ShowAuthScreen
     ∧ is_ChatApp (screen p) = false).
Proof.
  split; [reflexivity |]. split.
  - repeat split; try reflexivity. eexists. split; reflexivity.
  - repeat split; reflexivity.
Qed.

(** ** Switching the contact *)

(** C4, as stated, fails.  Over a stored token the contact list
    [alice; bob] arrives, [alice] becomes the active contact and her history
    [from_alice] is received; then [bob] is clicked.  The page that results
    shows the name of [bob] in the header above the message of [alice],
    which is no message of the conversation with [bob]. *)
Lemma contact_switch_keeps_old_messages :
  let p := run chat_loaded
             [Settle 0 (Resolved true (DMessages [from_alice]));
              ClickContact 1] in
  reachable p
  ∧ ∃ c, screen p = ChatAppOf c
       ∧ ChatApp.activeUser c = Some bob
       ∧ ChatApp.header c = User.username bob
       ∧ ChatApp.messages c = [from_alice]
       ∧ of_conversation alice from_alice
       ∧ ¬ of_conversation bob from_alice.
Proof.
  split; [apply reachable_run, reachable_run, reachable_boot |].
  eexists. split; [reflexivity |]. repeat split; try reflexivity.
  - by left.
  - by intros [?|?].
Qed.

(** C4, amended.  In a session with a token, switching the active contact
    from [A] to another contact [B] of the list changes the header to [B],
    leaves the displayed messages as they were and issues one fetch of the
    history of [B] with the session headers; when that fetch is answered,
    the displayed list is replaced wholesale by the history received. *)
Theorem contact_switch_replaces_messages_on_response
    (p : Page) (c : ChatApp.t) (i : nat) (A B : User.t) :
  screen p = ChatAppOf c →
  truthy (ChatApp.token c) = true →
  ChatApp.activeUser c = Some A →
  ChatApp.users c !! i = Some B →
  A ≠ B →
  let fetch := mkRequest (ApiMessagesOf (User.id B)) GET
                 (ChatApp.headers c) None in
  let p1 := step p (ClickContact i) in
  screen p1 = ChatAppOf (ChatApp.setActiveUser (Some B) c)
  ∧ ChatApp.header (ChatApp.setActiveUser (Some B) c) = User.username B
  ∧ ChatApp.messages (ChatApp.setActiveUser (Some B) c) = ChatApp.messages c
  ∧ issued p (ClickContact i) = [fetch]
  ∧ inflight p1 = inflight p ++ [(fetch, AwaitMessages)]
  ∧ ∀ (ok : bool) (data : list Message.t),
      screen (step p1 (Settle (length (inflight p))
                         (Resolved ok (DMessages data))))
      = ChatAppOf (ChatApp.setMessages data
                     (ChatApp.setActiveUser (Some B) c)).
Proof.
  intros Hs Htok HA HB Hne fetch p1.
  assert (ChatApp.effects (Some c) (ChatApp.setActiveUser (Some B) c)
          = [(fetch, AwaitMessages)]) as Heff.
  { unfold ChatApp.effects, ChatApp.load, ChatApp.token in *. simpl.
    rewrite decide_True by done.
    rewrite decide_False by (rewrite HA; intros [_ ?]; congruence).
    simpl. by rewrite Htok. }
  assert (p1 = issue [(fetch, AwaitMessages)]
                 (mkPage (localStorage p) (app p)
                    (ChatAppOf (ChatApp.setActiveUser (Some B) c))
                    (inflight p) (sent p))) as Hp1.
  { subst p1. unfold step. rewrite Hs. unfold ChatApp.click. rewrite HB.
    unfold update_chat. by rewrite Heff. }
  repeat split; try (by rewrite Hp1).
  - apply issued_app. fold p1. by rewrite Hp1.
  - intros ok data. rewrite Hp1. unfold step, settle, issue. simpl.
    rewrite lookup_app_r by done. rewrite Nat.sub_diag. simpl.
    unfold update_chat, issue. by simpl.
Qed.

Lemma contact_switch_replaces_messages_on_response_witness :
  let p := run chat_loaded [Settle 0 (Resolved true (DMessages [from_alice]))] in
  let p2 := run p [ClickContact 1; Settle 0 (Resolved true (DMessages []))] in
  issued p (ClickContact 1)
  = [mkRequest (ApiMessagesOf 7) GET (useAuth.headers (lit "tok1")) None]
  ∧ ∃ c, screen p2 = ChatAppOf c
       ∧ ChatApp.header c = User.username bob
       ∧ ChatApp.messages c = [].
Proof.
  intros p p2.
  destruct (contact_switch_replaces_messages_on_response p
              (ChatApp.mk (useAuth.mk (lit "tok1") None) [alice; bob]
                 (Some alice) [from_alice] [])
              1 alice bob)
    as (_ & _ & _ & Hfetch & _ & Hset);
    [reflexivity | reflexivity | reflexivity | reflexivity | discriminate |].
  split; [exact Hfetch |].
  eexists. split; [exact (Hset true []) |]. split; reflexivity.
Defined.

(** ** Sending a message *)

Lemma send_guard (c : ChatApp.t) :
  blank (ChatApp.text c) ∨ ChatApp.activeUser c = None →
  ChatApp.send c = None.
Proof.
  unfold ChatApp.send. intros [Hblank | ->]; [|done].
  apply trim_nil in Hblank. rewrite Hblank.
  by destruct (ChatApp.activeUser c).
Qed.

Lemma send_valid (c : ChatApp.t) (u : User.t) :
  ¬ blank (ChatApp.text c) → ChatApp.activeUser c = Some u →
  ChatApp.send c
  = Some (mkRequest ApiMessages POST (ChatApp.headers c)
            (Some (JObj [("receiverId", JNum (User.id u));
                         ("message", JStr (ChatApp.text c))])),
          AwaitSent).
Proof.
  intros Htext Hu. unfold ChatApp.send. rewrite Hu.
  apply trim_truthy in Htext. by rewrite Htext.
Qed.

(** C5.  A send whose text is empty or all white space, or that happens
    while no contact is active, issues no request and leaves the page, and
    with it the displayed messages, as it was. *)
Theorem blank_or_unaddressed_send_does_nothing (p : Page) (c : ChatApp.t) :
  screen p = ChatAppOf c →
  blank (ChatApp.text c) ∨ ChatApp.activeUser c = None →
  issued p SubmitSend = []
  ∧ step p SubmitSend = p
  ∧ screen (step p SubmitSend) = ChatAppOf c
  ∧ inflight (step p SubmitSend) = inflight p.
Proof.
  intros Hs Hguard.
  assert (step p SubmitSend = p) as Hstep.
  { unfold step. by rewrite Hs, send_guard. }
  split; [apply issued_nil; by rewrite Hstep |]. by rewrite Hstep.
Qed.

Lemma blank_or_unaddressed_send_does_nothing_witness :
  let p := run chat_loaded [ChangeText [0x20; 0x09; 0xA0; 0x0A]%N] in
  issued p SubmitSend = [] ∧ step p SubmitSend = p.
Proof.
  intros p.
  destruct (blank_or_unaddressed_send_does_nothing p
              (ChatApp.mk (useAuth.mk (lit "tok1") None) [alice; bob]
                 (Some alice) [] [0x20; 0x09; 0xA0; 0x0A]%N))
    as (Hnone & Hsame & _).
  - reflexivity.
  - left. by repeat constructor.
  - by split.
Defined.

(** C6.  A send with a text that is not blank, to an active contact,
    changes nothing that is displayed: it only issues the request and waits.
    No gesture changes the displayed messages, only responses do.  When the
    response to the send arrives, whatever happened in between, its message
    object is appended at the end of the list displayed at that time. *)
Theorem send_appends_the_server_message_on_response
    (p : Page) (c : ChatApp.t) (u : User.t) :
  screen p = ChatAppOf c →
  ¬ blank (ChatApp.text c) →
  ChatApp.activeUser c = Some u →
  let p1 := step p SubmitSend in
  screen p1 = ChatAppOf c
  ∧ (∃ req, inflight p1 = inflight p ++ [(req, AwaitSent)])
  ∧ (∀ (q : Page) (c' : ChatApp.t) (e : Event),
       screen q = ChatAppOf c' →
       match e with Reload | Settle _ _ => False | _ => True end →
       ∃ c'', screen (step q e) = ChatAppOf c''
            ∧ ChatApp.messages c'' = ChatApp.messages c')
  ∧ (∀ (q : Page) (c' : ChatApp.t) (j : nat) (req : Request)
       (ok : bool) (msg : Message.t),
       screen q = ChatAppOf c' →
       inflight q !! j = Some (req, AwaitSent) →
       ∃ c'', screen (step q (Settle j (Resolved ok (DMessage msg))))
              = ChatAppOf c''
            ∧ ChatApp.messages c'' = ChatApp.messages c' ++ [msg]).
Proof.
  intros Hs Htext Hu p1.
  assert (p1 = issue [(mkRequest ApiMessages POST (ChatApp.headers c)
                         (Some (JObj [("receiverId", JNum (User.id u));
                                      ("message", JStr (ChatApp.text c))])),
                       AwaitSent)] p) as Hp1.
  { subst p1. unfold step. by rewrite Hs, (send_valid c u). }
  split; [by rewrite Hp1 |]. split; [eexists; by rewrite Hp1 |]. split.
  - intros q c' e Hq He. unfold step. rewrite Hq.
    destruct e; try done; try (by eexists).
    + eexists. split; [done |]. unfold ChatApp.click.
      by destruct (ChatApp.users c' !! i).
    + destruct (ChatApp.send c'); simpl; by eexists.
  - intros q c' j req ok msg Hq Hj. unfold step, settle.
    rewrite Hj, Hq. by eexists.
Qed.

Lemma send_appends_the_server_message_on_response_witness :
  let p := run chat_loaded
             [Settle 0 (Resolved true (DMessages [from_alice]));
              ChangeText (lit " hi ")] in
  (∃ c, screen p = ChatAppOf c ∧ screen (step p SubmitSend) = ChatAppOf c
      ∧ ChatApp.messages c = [from_alice])
  ∧ ∃ c'', screen (run p [SubmitSend; Settle 0 (Resolved true (DMessage to_alice))])
           = ChatAppOf c''
         ∧ ChatApp.messages c'' = [from_alice; to_alice].
Proof.
  intros p.
  destruct (send_appends_the_server_message_on_response p
              (ChatApp.mk (useAuth.mk (lit "tok1") None) [alice; bob]
                 (Some alice) [from_alice] (lit " hi "))
              alice)
    as (Hsame & _ & _ & Happend).
  - reflexivity.
  - intros Hblank. apply trim_nil in Hblank. discriminate Hblank.
  - reflexivity.
  - split; [eexists; split; [reflexivity | split; [exact Hsame | reflexivity]] |].
    exact (Happend (step p SubmitSend) _ 0 _ true to_alice Hsame
             ltac:(reflexivity)).
Defined.

(** C10.  A send that passes the guard transmits the text as it was typed:
    the body of the request has the untrimmed text as its [message], so
    white space around the visible characters reaches the server. *)
Theorem send_transmits_the_raw_text (p : Page) (c : ChatApp.t) (u : User.t) :
  screen p = ChatAppOf c →
  ¬ blank (ChatApp.text c) →
  ChatApp.activeUser c = Some u →
  issued p SubmitSend
  = [mkRequest ApiMessages POST (ChatApp.headers c)
       (Some (JObj [("receiverId", JNum (User.id u));
                    ("message", JStr (ChatApp.text c))]))].
Proof.
  intros Hs Htext Hu. apply issued_app.
  unfold step. by rewrite Hs, (send_valid c u).
Qed.

Lemma send_transmits_the_raw_text_witness :
  let p := run chat_loaded [ChangeText (lit " hi ")] in
  trim (lit " hi ") = lit "hi"
  ∧ issued p SubmitSend
    = [mkRequest ApiMessages POST (useAuth.headers (lit "tok1"))
         (Some (JObj [("receiverId", JNum 5);
                      ("message", JStr (lit " hi "))]))].
Proof.
  intros p. split; [reflexivity |].
  apply (send_transmits_the_raw_text p
           (ChatApp.mk (useAuth.mk (lit "tok1") None) [alice; bob]
              (Some alice) [] (lit " hi "))
           alice).
  - reflexivity.
  - intros Hblank. apply trim_nil in Hblank. discriminate Hblank.
  - reflexivity.
Defined.

(** ** Logging out *)



(** ** The headers *)

(** C8.  The headers are a function of the token alone.  For every token
    they hold the JSON content type; they hold an [Authorization] entry
    exactly when the token is not empty, and then it is ["Bearer "] followed
    by the token; they hold nothing else. *)
Theorem headers_follow_the_token (token : jsstring) :
  useAuth.headers token !! "Content-Type" = Some (lit "application/json")
  ∧ (is_Some (useAuth.headers token !! "Authorization") ↔ token ≠ [])
  ∧ useAuth.headers token !! "Authorization"
    = (if truthy token then Some (lit "Bearer " ++ token) else None)
  ∧ dom (useAuth.headers token) ⊆ {[ "Content-Type"; "Authorization" ]}
  ∧ ∀ c : ChatApp.t, ChatApp.headers c = useAuth.headers (ChatApp.token c).
Proof.
  split; [apply headers_content_type |].
  split; [|split; [apply headers_authorization |]].
  - rewrite headers_authorization, <- truthy_true.
    destruct (truthy token); split; intros H;
      first [done | by destruct H].
  - split; [|done]. intros k Hk. apply elem_of_dom in Hk.
    destruct (decide (k = "Content-Type")) as [->|H1]; [set_solver |].
    destruct (decide (k = "Authorization")) as [->|H2]; [set_solver |].
    rewrite headers_other in Hk by done. by destruct Hk.
Qed.

(** ** The contact list *)

Lemma users_fetches_app (l1 l2 : list Request) :
  users_fetches (l1 ++ l2) = users_fetches l1 + users_fetches l2.
Proof. unfold users_fetches. by rewrite filter_app, length_app. Qed.

Lemma users_fetches_one_fetch (p : Page) (new : list Request) :
  one_fetch p new → users_fetches new = 0.
Proof.
  intros [->|(r & -> & Hr & _)]; [done |].
  unfold users_fetches. by rewrite filter_cons_False.
Qed.

(** Between two page loads no contact list is fetched. *)
Lemma run_users_fetches (p : Page) (es : list Event) :
  inv p → Reload ∉ es →
  users_fetches (sent (run p es)) = users_fetches (sent p).
Proof.
  revert p. induction es as [|e es IH]; intros p Hinv Hes; [done |].
  apply not_elem_of_cons in Hes as [He Hes]. simpl.
  rewrite IH by (by try apply inv_step).
  destruct (step_sent p e Hinv) as (new & -> & Hnew); [congruence |].
  rewrite users_fetches_app, (users_fetches_one_fetch p new Hnew). lia.
Qed.

(** C9.  A page that boots into an authenticated session, that is, with a
    token in storage, fetches the contact list exactly once for as long as
    it is not loaded again.  When the answer arrives while no contact is
    active and the list is not empty, the list is displayed and its first
    contact becomes the active one. *)
Theorem contacts_fetched_once_and_first_selected
    (ls : gmap string jsstring) (es : list Event) :
  truthy (useAuth.token (useAuth.init ls)) = true →
  Reload ∉ es →
  let p := run (boot ls) es in
  is_ChatApp (screen (boot ls)) = true
  ∧ users_fetches (sent p) = 1
  ∧ ∀ (c : ChatApp.t) (i : nat) (req : Request) (cl : option User.t)
      (ok : bool) (first : User.t) (rest : list User.t),
      screen p = ChatAppOf c →
      inflight p !! i = Some (req, AwaitUsers cl) →
      ChatApp.activeUser c = None →
      ∃ c', screen (step p (Settle i (Resolved ok (DUsers (first :: rest)))))
            = ChatAppOf c'
          ∧ ChatApp.users c' = first :: rest
          ∧ ChatApp.activeUser c' = Some first.
Proof.
  intros Htok Hes p. split; [by rewrite boot_screen |]. split.
  - subst p. rewrite run_users_fetches by (done || apply inv_boot).
    by rewrite boot_sent, Htok.
  - intros c i req cl ok first rest Hs Hi Hnone.
    assert (inv p) as [_ Hown]
      by apply reachable_inv, reachable_run, reachable_boot.
    rewrite Forall_lookup in Hown. specialize (Hown _ _ Hi).
    rewrite Hs in Hown. simpl in Hown. destruct cl as [u|]; [done |].
    unfold step, settle. rewrite Hi, Hs. by eexists.
Qed.

Lemma contacts_fetched_once_and_first_selected_witness :
  let p := run (boot {[ "token" := lit "tok1" ]}) [ChangeText (lit "x")] in
  users_fetches (sent p) = 1
  ∧ ∃ c', screen (step p (Settle 0 (Resolved true (DUsers [alice; bob]))))
          = ChatAppOf c'
        ∧ ChatApp.users c' = [alice; bob]
        ∧ ChatApp.activeUser c' = Some alice.
Proof.
  intros p.
  destruct (contacts_fetched_once_and_first_selected
              {[ "token" := lit "tok1" ]} [ChangeText (lit "x")])
    as (_ & Honce & Hfirst).
  - reflexivity.
  - by intros ?%list_elem_of_singleton.
  - split; [exact Honce |].
    apply (Hfirst (ChatApp.mk (useAuth.mk (lit "tok1") None) [] None []
                     (lit "x"))
             0 (mkRequest ApiUsers GET ∅ None) None); reflexivity.
Defined.

(** ** Who writes the stored token *)

(** The stored token changes only when [logout] is clicked or when a login
    or a register is answered with success. *)
Lemma boot_storage (ls : gmap string jsstring) : localStorage (boot ls) = ls.
Proof.
  destruct (truthy (useAuth.token (useAuth.init ls))) eqn:Ht;
    [by rewrite boot_chat | by rewrite boot_auth].
Qed.

Lemma storage_written_by (p : Page) (e : Event) :
  localStorage (step p e) = localStorage p
  ∨ e = ClickLogout
  ∨ ∃ i t, e = Settle i (Resolved true (DToken t)).
Proof.
  destruct e; unfold step; try (by right; left).
  { left. simpl. apply boot_storage. }
  1-8: destruct (screen p) as [a|c]; try (by left).
  - left. by destruct (AuthScreen.mode a).
  - left. by destruct (AuthScreen.submit a).
  - left. by destruct (ChatApp.send c).
  - unfold settle.
    destruct (inflight p !! i) as [[req k]|]; [|by left].
    destruct k, (screen p) as [a|c]; try (by left);
      destruct res as [msg|[] [t|data|l|m]]; try (by left);
      right; right; by eexists _, _.
Qed.

(** ** The form and the contact list stay consistent *)

Lemma pending_users_app (l1 l2 : list (Request * Cont)) :
  pending_users (l1 ++ l2) = pending_users l1 + pending_users l2.
Proof. unfold pending_users. by rewrite filter_app, length_app. Qed.

Lemma pending_users_delete (l : list (Request * Cont)) (i : nat)
    (req : Request) (k : Cont) :
  l !! i = Some (req, k) →
  pending_users l
  = pending_users (delete i l) + (if awaits_users k then 1 else 0).
Proof.
  intros Hi. rewrite <- (take_drop_middle l i _ Hi) at 1.
  rewrite delete_take_drop, !pending_users_app.
  unfold pending_users at 2. rewrite filter_cons. simpl.
  fold (pending_users (drop (S i) l)).
  destruct (awaits_users k); case_decide; simpl;
    fold (pending_users (drop (S i) l)); try done; lia.
Qed.

Lemma pending_users_effects (c0 c : ChatApp.t) :
  ChatApp.token c = ChatApp.token c0 ∨ ChatApp.token c = [] →
  pending_users (ChatApp.effects (Some c0) c) = 0.
Proof.
  intros Htok.
  by destruct (effects_update c0 c Htok) as [->|(u & _ & _ & _ & _ & ->)].
Qed.

Lemma widgets_update_chat (c0 c : ChatApp.t) (p : Page) :
  ChatApp.token c = ChatApp.token c0 ∨ ChatApp.token c = [] →
  pending_users (inflight p) ≤ 1 →
  (pending_users (inflight p) = 1 → ChatApp.users c = []) →
  (∀ u, ChatApp.activeUser c = Some u → u ∈ ChatApp.users c) →
  widgets_ok (update_chat c0 c p).
Proof.
  intros Htok Hle Hone Hact. unfold widgets_ok, update_chat, issue.
  cbn [screen inflight].
  by rewrite pending_users_app, pending_users_effects, Nat.add_0_r.
Qed.

Lemma widgets_boot (ls : gmap string jsstring) : widgets_ok (boot ls).
Proof.
  destruct (truthy (useAuth.token (useAuth.init ls))) eqn:Ht.
  - rewrite boot_chat by done. unfold widgets_ok. simpl.
    repeat split; try done; unfold pending_users; simpl; lia.
  - rewrite boot_auth by done. unfold widgets_ok. by simpl.
Qed.

Lemma widgets_submit_resume (a : AuthScreen.t) (o : useAuth.outcome)
    (p : Page) :
  App.token (app p) = [] → widgets_ok (submit_resume a o p).
Proof.
  intros Htok. destruct o as [msg|ls h]; unfold widgets_ok; simpl; [done |].
  unfold reconcile, App.render, App.onAuthed, App.token in *. simpl.
  rewrite Htok. by simpl.
Qed.

Lemma widgets_settle (i : nat) (res : Response) (p : Page) :
  inv p → widgets_ok p → widgets_ok (settle i res p).
Proof.
  intros [Hscr Hown] Hw. unfold settle.
  destruct (inflight p !! i) as [[req k]|] eqn:Hi; [|done].
  pose proof (pending_users_delete _ _ _ _ Hi) as Hdel.
  unfold screen_ok in Hscr. pose proof Hw as Hw'. unfold widgets_ok in Hw'.
  destruct k, (screen p) as [a|c] eqn:Hs; try done.
  - destruct (useAuth.login _ _ _); [|done].
    by apply widgets_submit_resume.
  - destruct (useAuth.register _ _ _); [|done].
    by apply widgets_submit_resume.
  - destruct Hw' as (Hle & Hone & Hact). simpl in Hdel.
    assert (ChatApp.users c = []) as Hnil by (apply Hone; lia).
    assert (ChatApp.activeUser c = None) as Hnone.
    { destruct (ChatApp.activeUser c) as [u|] eqn:Hu; [|done].
      specialize (Hact u eq_refl). rewrite Hnil in Hact.
      by apply elem_of_nil in Hact. }
    destruct res as [msg|ok [t|data|l|m]]; try done.
    + unfold widgets_ok. simpl. repeat split; try done; lia.
    + apply widgets_update_chat; cbn [inflight].
      * left. apply loadUsers_resume_token.
      * lia.
      * intros ?. lia.
      * unfold ChatApp.loadUsers_resume.
        destruct activeUser, data as [|first rest]; simpl;
          rewrite ?Hnone; try done.
        intros u [= <-]. left.
  - destruct Hw' as (Hle & Hone & Hact). simpl in Hdel.
    destruct res as [msg|ok [t|data|l|m]]; try done.
    + unfold widgets_ok. simpl.
      split; [lia |]. split; [intros ?; apply Hone; lia | done].
    + apply widgets_update_chat; cbn [inflight]; try (by left); try lia;
        try done.
      intros ?. apply Hone. lia.
  - destruct Hw' as (Hle & Hone & Hact). simpl in Hdel.
    destruct res as [msg|ok [t|data|l|m]]; try done.
    + unfold widgets_ok. simpl.
      split; [lia |]. split; [intros ?; apply Hone; lia | done].
    + apply widgets_update_chat; cbn [inflight]; try (by left); try lia;
        try done.
      intros ?. apply Hone. lia.
Qed.

Lemma widgets_step (p : Page) (e : Event) :
  inv p → widgets_ok p → widgets_ok (step p e).
Proof.
  intros Hinv Hw. destruct e; try (by apply widgets_settle).
  { (* Reload *) pose proof (widgets_boot (localStorage p)) as Hb.
    unfold widgets_ok in *. by simpl. }
  all: pose proof Hw as Hw'; unfold step, widgets_ok in Hw' |- *.
  all: destruct (screen p) as [a|c] eqn:Hs; try done.
  - (* ChangeUsername *)
    destruct (AuthScreen.mode a); simpl; by rewrite ?Hs.
  - (* SubmitAuth *)
    unfold AuthScreen.submit.
    destruct (AuthScreen.mode a); simpl; intros _; by destruct (inflight p).
  - (* ClickLogout *)
    destruct Hw' as (Hle & Hone & Hact). unfold useAuth.logout. cbv beta iota.
    apply widgets_update_chat; try done. by right.
  - (* ClickContact *)
    destruct Hw' as (Hle & Hone & Hact).
    apply widgets_update_chat; try done.
    + left. apply click_token.
    + unfold ChatApp.click.
      by destruct (ChatApp.users c !! i).
    + unfold ChatApp.click.
      destruct (ChatApp.users c !! i) as [u|] eqn:Hu; [|done].
      simpl. intros ? [= <-]. by eapply list_elem_of_lookup_2.
  - (* ChangeText *)
    destruct Hw' as (Hle & Hone & Hact).
    apply widgets_update_chat; by try left.
  - (* SubmitSend *)
    destruct Hw' as (Hle & Hone & Hact).
    destruct (ChatApp.send c) as [[req k]|] eqn:Hsend; [|by rewrite Hs].
    assert (k = AwaitSent) as ->.
    { unfold ChatApp.send in Hsend.
      destruct (ChatApp.activeUser c); [|done].
      destruct (negb _); [done |]. by injection Hsend as <- <-. }
    simpl. rewrite Hs, pending_users_app. unfold pending_users at 2 4.
    simpl. by rewrite !Nat.add_0_r.
Qed.

Lemma reachable_widgets (p : Page) : reachable p → widgets_ok p.
Proof.
  induction 1 as [ls|p e Hp IH]; [apply widgets_boot |].
  by apply widgets_step; [apply reachable_inv |].
Qed.

(** ** Registering, and submissions that fail to settle *)

Lemma issue_nil (p : Page) : issue [] p = p.
Proof. destruct p. unfold issue. simpl. by rewrite !app_nil_r. Qed.

Lemma accepted_submission_page (p : Page) (i : nat) (req : Request)
    (k : Cont) (t : jsstring) :
  inv p →
  inflight p !! i = Some (req, k) →
  k = AwaitLogin ∨ k = AwaitRegister →
  ∃ a, screen p = AuthScreenOf a
     ∧ step p (Settle i (Resolved true (DToken t)))
       = mkPage (<["token" := t]> (localStorage p)) (App.onAuthed (app p))
           (AuthScreenOf
              (AuthScreen.setLoading false
                 (AuthScreen.setAuth
                    (useAuth.mk t (useAuth.user (AuthScreen.auth a))) a)))
           (delete i (inflight p)) (sent p).
Proof.
  intros Hinv Hi Hk.
  destruct (awaiting_login p i req k Hinv Hi Hk) as (a & Hs & Htok).
  exists a. split; [done |]. unfold step, settle. rewrite Hi, Hs.
  destruct Hk as [-> | ->]; simpl;
    unfold reconcile, App.render, App.onAuthed, App.token in *; simpl;
    rewrite Htok; simpl; by rewrite issue_nil.
Qed.

(** X1.  When a register is answered with success and a body whose
    [access_token] is [t], the client stores [t] under the key ["token"] and
    sets the token of the auth screen's hook to [t]; on every page reached
    afterwards, while [t] is still the stored token, each request to an
    authenticated endpoint carries [Authorization: Bearer t]. *)
Theorem register_persists_token_and_requests_carry_it
    (p : Page) (i : nat) (req : Request) (t : jsstring) :
  reachable p →
  inflight p !! i = Some (req, AwaitRegister) →
  let p1 := step p (Settle i (Resolved true (DToken t))) in
  localStorage p1 !! "token" = Some t
  ∧ (∃ a, screen p1 = AuthScreenOf a ∧ useAuth.token (AuthScreen.auth a) = t)
  ∧ ∀ (es : list Event) (e : Event) (r : Request),
      localStorage (run p1 es) !! "token" = Some t →
      r ∈ issued (run p1 es) e →
      authenticated r = true →
      req_headers r !! "Authorization" = Some (lit "Bearer " ++ t).
Proof.
  intros Hp Hi p1.
  destruct (accepted_submission_page p i req AwaitRegister t)
    as (a & Hs & Hp1); [by apply reachable_inv | done | by right |].
  fold p1 in Hp1. split; [|split].
  - rewrite Hp1. apply lookup_insert_eq.
  - rewrite Hp1. by eexists.
  - intros es e r Hls Hr Hauth.
    apply (issued_bearer (run p1 es) e r t); try done.
    apply reachable_inv, reachable_run. by constructor.
Qed.

Lemma register_persists_token_and_requests_carry_it_witness :
  let p0 := run (boot ∅)
              [ClickMode ModeRegister; ChangeUsername (lit "a");
               ChangeEmail (lit "a@b.com"); ChangePassword (lit "x");
               SubmitAuth] in
  let p1 := step p0 (Settle 0 (Resolved true (DToken (lit "tok1")))) in
  localStorage p1 !! "token" = Some (lit "tok1")
  ∧ ∃ r, r ∈ issued (run p1 [Reload; Settle 0 (Resolved true (DUsers [bob]));
                             ChangeText (lit "hi")]) SubmitSend
       ∧ path r = ApiMessages
       ∧ req_headers r !! "Authorization" = Some (lit "Bearer tok1").
Proof.
  intros p0 p1.
  destruct (register_persists_token_and_requests_carry_it p0 0
              (useAuth.register_fetch (lit "a") (lit "a@b.com") (lit "x"))
              (lit "tok1"))
    as (Hstored & _ & Hsent).
  - apply reachable_run, reachable_boot.
  - reflexivity.
  - split; [exact Hstored |].
    set (r := mkRequest ApiMessages POST (useAuth.headers (lit "tok1"))
                (Some (JObj [("receiverId", JNum 7);
                             ("message", JStr (lit "hi"))]))).
    assert (r ∈ issued (run p1 [Reload;
                                Settle 0 (Resolved true (DUsers [bob]));
                                ChangeText (lit "hi")]) SubmitSend) as Hin.
    { vm_compute. left. }
    exists r. split; [exact Hin |]. split; [reflexivity |].
    apply (Hsent [Reload; Settle 0 (Resolved true (DUsers [bob]));
                  ChangeText (lit "hi")] SubmitSend r);
      [reflexivity | exact Hin | reflexivity].
Defined.

(** X2.  When the fetch of a login or a register is rejected (or its body
    cannot be parsed), the auth screen shows the message of the error, or
    "Something went wrong" when that message is empty; the form is no longer
    busy, nothing is stored, no token is set and [App] is not touched. *)
Theorem rejected_submission_shows_message
    (p : Page) (i : nat) (req : Request) (k : Cont) (msg : jsstring) :
  reachable p →
  inflight p !! i = Some (req, k) →
  k = AwaitLogin ∨ k = AwaitRegister →
  let p' := step p (Settle i (Rejected msg)) in
  ∃ a a',
    screen p = AuthScreenOf a
    ∧ screen p' = AuthScreenOf a'
    ∧ AuthScreen.error a'
      = (if truthy msg then msg else lit "Something went wrong")
    ∧ AuthScreen.shows_error a' = true
    ∧ AuthScreen.loading a' = false
    ∧ AuthScreen.auth a' = AuthScreen.auth a
    ∧ localStorage p' = localStorage p
    ∧ app p' = app p
    ∧ inflight p' = delete i (inflight p)
    ∧ sent p' = sent p.
Proof.
  intros Hp Hi Hk p'.
  destruct (awaiting_login p i req k) as (a & Hs & Htok);
    [by apply reachable_inv | done | done |].
  subst p'. unfold step, settle. rewrite Hi, Hs.
  exists a. destruct Hk as [-> | ->]; simpl; eexists;
    (repeat split; try done);
    unfold AuthScreen.shows_error; simpl; by destruct msg.
Qed.

Lemma rejected_submission_shows_message_witness :
  let p' := step login_submitted (Settle 0 (Rejected [])) in
  ∃ a', screen p' = AuthScreenOf a'
      ∧ AuthScreen.error a' = lit "Something went wrong"
      ∧ AuthScreen.loading a' = false
      ∧ localStorage p' = localStorage login_submitted.
Proof.
  intros p'.
  destruct (rejected_submission_shows_message login_submitted 0
              (useAuth.login_fetch (lit "a@b.com") (lit "x")) AwaitLogin [])
    as (a & a' & _ & Hs & Herr & _ & Hload & _ & Hls & _).
  - apply reachable_run, reachable_boot.
  - reflexivity.
  - left. reflexivity.
  - exists a'. by repeat split.
Defined.

(** ** Page loads and the mounted component *)

Lemma app_token_step (p : Page) (e : Event) :
  e ≠ Reload → App.token (app (step p e)) = App.token (app p).
Proof.
  intros He. destruct e; try done; unfold step.
  1-9: destruct (screen p) as [a|c]; try done.
  - by destruct (AuthScreen.mode a).
  - by destruct (AuthScreen.submit a).
  - by destruct (ChatApp.send c).
  - unfold settle. destruct (inflight p !! i) as [[req k]|]; [|done].
    assert (∀ a o q, App.token (app q) = App.token (app p) →
              App.token (app (submit_resume a o q)) = App.token (app p))
      as Hres.
    { intros a [msg|ls h] q Hq; simpl; [done |].
      by destruct (reconcile _ _ _). }
    destruct k, (screen p) as [a|c]; try done.
    + destruct (useAuth.login _ _ _); [by apply Hres | done].
    + destruct (useAuth.register _ _ _); [by apply Hres | done].
    + by destruct res as [msg|ok [t|data|l|m]].
    + by destruct res as [msg|ok [t|data|l|m]].
    + by destruct res as [msg|ok [t|data|l|m]].
Qed.

Lemma is_ChatApp_step (p : Page) (e : Event) :
  inv p → e ≠ Reload →
  is_ChatApp (screen (step p e)) = is_ChatApp (screen p).
Proof.
  intros Hinv He. pose proof (step_screen p e Hinv He) as H.
  destruct (screen p) as [a|c]; simpl.
  - by destruct (screen (step p e)).
  - by destruct H as (c' & -> & _).
Qed.

Lemma conforming_reachable (p : Page) : conforming p → reachable p.
Proof. induction 1; by constructor. Qed.

Lemma conforming_run (p : Page) (es : list Event) :
  conforming p → runs_on_contract p es = true → conforming (run p es).
Proof.
  revert p. induction es as [|e es IH]; intros p Hp Hes; [done |].
  simpl in Hes. apply andb_prop in Hes as [He Hes].
  apply IH; [by constructor | done].
Qed.

Lemma run_keeps_screen (p : Page) (es : list Event) :
  reachable p →
  Reload ∉ es →
  is_ChatApp (screen (run p es)) = is_ChatApp (screen p)
  ∧ App.token (app (run p es)) = App.token (app p).
Proof.
  intros Hp Hes.
  revert p Hp. induction es as [|e es IH]; intros p Hp; [done |].
  apply not_elem_of_cons in Hes as [He Hes]. simpl.
  destruct (IH Hes (step p e)) as [Hc Ht]; [by constructor |].
  rewrite Hc, Ht. split.
  - apply is_ChatApp_step; [by apply reachable_inv | congruence].
  - apply app_token_step. congruence.
Qed.

(** X3.  Between two page loads, and as long as every response has the
    shape that its endpoint promises, the component mounted by [App] never
    changes, whatever is typed, clicked or answered: the token that [App]
    reads keeps the value it had when the page was loaded, an auth screen
    stays an auth screen and a chat view stays a chat view. *)
Theorem screen_fixed_between_loads (p : Page) (es : list Event) :
  conforming p →
  runs_on_contract p es = true →
  Reload ∉ es →
  conforming (run p es)
  ∧ is_ChatApp (screen (run p es)) = is_ChatApp (screen p)
  ∧ is_AuthScreen (screen (run p es)) = is_AuthScreen (screen p)
  ∧ App.token (app (run p es)) = App.token (app p).
Proof.
  intros Hp Hok Hes. split; [by apply conforming_run |].
  destruct (run_keeps_screen p es) as [Hc Ht];
    [by apply conforming_reachable | done |].
  repeat split; try done.
  destruct (screen (run p es)), (screen p); done.
Qed.

Lemma screen_fixed_between_loads_witness :
  let es := [ChangeEmail (lit "a@b.com"); ChangePassword (lit "x");
             SubmitAuth; Settle 0 (Resolved true (DToken (lit "tok1")));
             ClickMode ModeRegister] in
  is_ChatApp (screen (run (boot ∅) es)) = false
  ∧ App.token (app (run (boot ∅) es)) = [].
Proof.
  intros es.
  destruct (screen_fixed_between_loads (boot ∅) es) as (_ & Hc & _ & Ht).
  - apply conforming_boot.
  - reflexivity.
  - intros Hin. repeat (apply elem_of_cons in Hin as [Hin|Hin]; [done |]).
    by apply elem_of_nil in Hin.
  - by split.
Defined.

(** X4.  A token accepted from a login or a register is picked up by the
    next page load: when it is not empty, the page then shows the chat view,
    [App] and [ChatApp] both hold the token, and the contact list is being
    fetched; an empty token leaves the page on the auth screen. *)
Theorem accepted_token_hydrated_by_reload
    (p : Page) (i : nat) (req : Request) (k : Cont) (t : jsstring) :
  reachable p →
  inflight p !! i = Some (req, k) →
  k = AwaitLogin ∨ k = AwaitRegister →
  let p2 := step (step p (Settle i (Resolved true (DToken t)))) Reload in
  if truthy t
  then screen p2 = ChatAppOf (ChatApp.mk (useAuth.mk t None) [] None [] [])
       ∧ App.token (app p2) = t
       ∧ App.ready (app p2) = true
       ∧ inflight p2 = [(mkRequest ApiUsers GET ∅ None, AwaitUsers None)]
  else is_AuthScreen (screen p2) = true ∧ inflight p2 = [].
Proof.
  intros Hp Hi Hk p2.
  destruct (accepted_submission_page p i req k t)
    as (a & Hs & Hp1); [by apply reachable_inv | done | done |].
  subst p2. rewrite Hp1. unfold step. cbn [localStorage].
  assert (useAuth.init (<["token" := t]> (localStorage p))
          = useAuth.mk t None) as Hinit.
  { unfold useAuth.init. by rewrite lookup_insert_eq, or_else_nil. }
  destruct (truthy t) eqn:Ht.
  - rewrite boot_chat by (by rewrite Hinit).
    cbn [screen app inflight App.token App.auth App.ready].
    unfold ChatApp.init. by rewrite Hinit.
  - rewrite boot_auth by (by rewrite Hinit). by cbn.
Qed.

Lemma accepted_token_hydrated_by_reload_witness :
  let p2 := run login_submitted
              [Settle 0 (Resolved true (DToken (lit "tok1"))); Reload] in
  is_ChatApp (screen p2) = true ∧ App.token (app p2) = lit "tok1".
Proof.
  intros p2.
  pose proof (accepted_token_hydrated_by_reload login_submitted 0
                (useAuth.login_fetch (lit "a@b.com") (lit "x")) AwaitLogin
                (lit "tok1")) as H.
  cbv zeta in H. change (truthy (lit "tok1")) with true in H. cbv iota in H.
  destruct H as (Hs & Ht & _).
  - apply reachable_run, reachable_boot.
  - reflexivity.
  - left. reflexivity.
  - split; [exact (f_equal is_ChatApp Hs) | exact Ht].
Defined.

(** X5.  A page load keeps the storage, forgets every fetch in flight and
    mounts by the stored token alone: with a non-empty token the chat view
    in its initial state, issuing one request, [GET /api/users] without any
    header; with no token, or an empty one, the auth screen in its initial
    state and no request. *)
Theorem page_load_mounts_by_stored_token (p : Page) :
  let p' := step p Reload in
  localStorage p' = localStorage p
  ∧ match localStorage p !! "token" with
    | Some (c :: t) =>
        screen p'
        = ChatAppOf (ChatApp.mk (useAuth.mk (c :: t) None) [] None [] [])
        ∧ issued p Reload = [mkRequest ApiUsers GET ∅ None]
        ∧ inflight p' = [(mkRequest ApiUsers GET ∅ None, AwaitUsers None)]
    | _ =>
        screen p'
        = AuthScreenOf
            (AuthScreen.mk ModeLogin [] [] [] false [] (useAuth.mk [] None))
        ∧ issued p Reload = []
        ∧ inflight p' = []
    end.
Proof.
  intros p'. split; [apply boot_storage |].
  assert (sent p' = sent p ++ sent (boot (localStorage p))) as Hsent by done.
  apply issued_app in Hsent. subst p'. unfold step.
  destruct (localStorage p !! "token") as [[|c t]|] eqn:Hls.
  - rewrite boot_auth in * by (unfold useAuth.init; by rewrite Hls).
    unfold AuthScreen.init, useAuth.init. by rewrite Hls.
  - rewrite boot_chat in * by (unfold useAuth.init; by rewrite Hls).
    unfold ChatApp.init, useAuth.init. by rewrite Hls.
  - rewrite boot_auth in * by (unfold useAuth.init; by rewrite Hls).
    unfold AuthScreen.init, useAuth.init. by rewrite Hls.
Qed.

(** ** The chat view without a token *)

Lemma logout_page (p : Page) (c : ChatApp.t) :
  screen p = ChatAppOf c →
  step p ClickLogout
  = mkPage (delete "token" (localStorage p)) (app p)
      (ChatAppOf (ChatApp.setAuth (useAuth.mk [] None) c))
      (inflight p) (sent p).
Proof.
  intros Hs. unfold step. rewrite Hs. unfold useAuth.logout, update_chat.
  destruct (effects_update c (ChatApp.setAuth (useAuth.mk [] None) c))
    as [->|(u & _ & _ & _ & Ht & _)]; [by right | | done].
  unfold issue. simpl. by rewrite !app_nil_r.
Qed.

(** X6.  [logout] leaves the chat view on the page, and [send] does not
    look at the token: a send of a text that is not blank to the active
    contact, after a logout, still issues [POST /api/messages], with the
    JSON content type but without any [Authorization] header. *)
Theorem send_after_logout_carries_no_token
    (p : Page) (c : ChatApp.t) (u : User.t) :
  screen p = ChatAppOf c →
  ¬ blank (ChatApp.text c) →
  ChatApp.activeUser c = Some u →
  let p1 := step p ClickLogout in
  is_ChatApp (screen p1) = true
  ∧ ∃ r, issued p1 SubmitSend = [r]
       ∧ path r = ApiMessages
       ∧ method r = POST
       ∧ body r = Some (JObj [("receiverId", JNum (User.id u));
                              ("message", JStr (ChatApp.text c))])
       ∧ req_headers r !! "Content-Type" = Some (lit "application/json")
       ∧ req_headers r !! "Authorization" = None.
Proof.
  intros Hs Htext Hu p1. subst p1. rewrite (logout_page p c Hs).
  split; [done |]. eexists. split.
  - apply issued_app. unfold step. cbn [screen].
    rewrite (send_valid _ u) by done. done.
  - by repeat split.
Qed.

Lemma send_after_logout_carries_no_token_witness :
  let p := run chat_loaded [ChangeText (lit "hi")] in
  ∃ r, issued (step p ClickLogout) SubmitSend = [r]
     ∧ path r = ApiMessages
     ∧ req_headers r !! "Authorization" = None.
Proof.
  intros p.
  destruct (send_after_logout_carries_no_token p
              (ChatApp.mk (useAuth.mk (lit "tok1") None) [alice; bob]
                 (Some alice) [] (lit "hi"))
              alice)
    as (_ & r & Hr & Hpath & _ & _ & _ & Hauth).
  - reflexivity.
  - intros Hblank. apply trim_nil in Hblank. discriminate Hblank.
  - reflexivity.
  - by exists r.
Defined.

(** X7.  Without a token a click on a contact only moves the selection:
    the header changes, the displayed messages stay and no history is
    fetched. *)
Theorem contact_switch_without_token_fetches_nothing
    (p : Page) (c : ChatApp.t) (i : nat) (B : User.t) :
  screen p = ChatAppOf c →
  ChatApp.token c = [] →
  ChatApp.users c !! i = Some B →
  step p (ClickContact i)
  = mkPage (localStorage p) (app p)
      (ChatAppOf (ChatApp.setActiveUser (Some B) c)) (inflight p) (sent p)
  ∧ issued p (ClickContact i) = []
  ∧ ChatApp.header (ChatApp.setActiveUser (Some B) c) = User.username B
  ∧ ChatApp.messages (ChatApp.setActiveUser (Some B) c) = ChatApp.messages c.
Proof.
  intros Hs Htok HB.
  assert (step p (ClickContact i)
          = mkPage (localStorage p) (app p)
              (ChatAppOf (ChatApp.setActiveUser (Some B) c))
              (inflight p) (sent p)) as Hstep.
  { unfold step. rewrite Hs. unfold ChatApp.click. rewrite HB.
    unfold update_chat.
    destruct (effects_update c (ChatApp.setActiveUser (Some B) c))
      as [->|(u & _ & _ & _ & Ht & _)]; [by left | |].
    - unfold issue. simpl. by rewrite !app_nil_r.
    - unfold ChatApp.token in *. simpl in Ht. by rewrite Htok in Ht. }
  split; [done |]. split; [|done]. apply issued_nil. by rewrite Hstep.
Qed.

Lemma contact_switch_without_token_fetches_nothing_witness :
  let p := run chat_loaded
             [Settle 0 (Resolved true (DMessages [from_alice]));
              ClickLogout] in
  issued p (ClickContact 1) = []
  ∧ ∃ c, screen (step p (ClickContact 1)) = ChatAppOf c
       ∧ ChatApp.header c = User.username bob
       ∧ ChatApp.messages c = [from_alice].
Proof.
  intros p.
  destruct (contact_switch_without_token_fetches_nothing p
              (ChatApp.mk (useAuth.mk [] None) [alice; bob]
                 (Some alice) [from_alice] [])
              1 bob)
    as (Hstep & Hnone & Hhead & Hmsgs); try reflexivity.
  split; [exact Hnone |]. eexists.
  split; [exact (f_equal screen Hstep) |]. by split.
Defined.

(** ** Responses out of order, and fetches that fail *)

Lemma delete_last_app {A : Type} (l : list A) (x : A) :
  delete (length l) (l ++ [x]) = l.
Proof. induction l as [|y l IH]; simpl; [done | by rewrite IH]. Qed.

Lemma settle_messages_page (q : Page) (c : ChatApp.t) (i : nat)
    (req : Request) (ok : bool) (data : list Message.t) :
  screen q = ChatAppOf c →
  inflight q !! i = Some (req, AwaitMessages) →
  step q (Settle i (Resolved ok (DMessages data)))
  = mkPage (localStorage q) (app q)
      (ChatAppOf (ChatApp.setMessages data c))
      (delete i (inflight q)) (sent q).
Proof.
  intros Hs Hi. unfold step, settle. rewrite Hi, Hs.
  unfold update_chat, ChatApp.load_resume.
  assert (ChatApp.effects (Some c) (ChatApp.setMessages data c) = []) as ->.
  { unfold ChatApp.effects. simpl. by rewrite !decide_True. }
  by rewrite issue_nil.
Qed.

Lemma click_other_page (p : Page) (c : ChatApp.t) (i : nat) (A B : User.t) :
  screen p = ChatAppOf c →
  truthy (ChatApp.token c) = true →
  ChatApp.activeUser c = Some A →
  ChatApp.users c !! i = Some B →
  A ≠ B →
  step p (ClickContact i)
  = mkPage (localStorage p) (app p)
      (ChatAppOf (ChatApp.setActiveUser (Some B) c))
      (inflight p
       ++ [(mkRequest (ApiMessagesOf (User.id B)) GET (ChatApp.headers c)
              None, AwaitMessages)])
      (sent p
       ++ [mkRequest (ApiMessagesOf (User.id B)) GET (ChatApp.headers c)
             None]).
Proof.
  intros Hs Htok HA HB Hne.
  unfold step. rewrite Hs. unfold ChatApp.click. rewrite HB.
  unfold update_chat, ChatApp.effects, ChatApp.load, ChatApp.token in *.
  simpl. rewrite decide_True by done.
  rewrite decide_False by (rewrite HA; intros [_ ?]; congruence).
  simpl. by rewrite Htok.
Qed.

(** X8.  History responses are applied in the order in which they arrive,
    not in the order of the clicks: when the history of [A] is still in
    flight while the user switches to [B], and the answer for [B] arrives
    before the answer for [A], the page ends up showing the history of [A]
    under the header of [B]. *)
Theorem late_history_response_wins
    (p : Page) (c : ChatApp.t) (i j : nat) (A B : User.t) (reqA : Request)
    (okA okB : bool) (dataA dataB : list Message.t) :
  screen p = ChatAppOf c →
  truthy (ChatApp.token c) = true →
  ChatApp.activeUser c = Some A →
  ChatApp.users c !! i = Some B →
  A ≠ B →
  inflight p !! j = Some (reqA, AwaitMessages) →
  path reqA = ApiMessagesOf (User.id A) →
  let p3 := run p [ClickContact i;
                   Settle (length (inflight p))
                     (Resolved okB (DMessages dataB));
                   Settle j (Resolved okA (DMessages dataA))] in
  screen p3
  = ChatAppOf (ChatApp.setMessages dataA (ChatApp.setActiveUser (Some B) c))
  ∧ ChatApp.header
      (ChatApp.setMessages dataA (ChatApp.setActiveUser (Some B) c))
    = User.username B
  ∧ inflight p3 = delete j (inflight p).
Proof.
  intros Hs Htok HA HB Hne Hj HreqA p3. subst p3.
  change (run p ?es) with (foldl step p es). cbn [foldl].
  rewrite (click_other_page p c i A B) by done.
  set (fetch := mkRequest (ApiMessagesOf (User.id B)) GET
                  (ChatApp.headers c) None).
  set (cB := ChatApp.setActiveUser (Some B) c).
  rewrite (settle_messages_page _ cB (length (inflight p)) fetch okB dataB);
    [|done|].
  2:{ cbn [inflight]. rewrite lookup_app_r by done.
      by rewrite Nat.sub_diag. }
  cbn [inflight localStorage app sent]. rewrite delete_last_app.
  by rewrite (settle_messages_page _ (ChatApp.setMessages dataB cB) j reqA
                okA dataA).
Qed.

Lemma late_history_response_wins_witness :
  let p3 := run chat_loaded
              [ClickContact 1;
               Settle 1 (Resolved true (DMessages []));
               Settle 0 (Resolved true (DMessages [from_alice]))] in
  ∃ c, screen p3 = ChatAppOf c
     ∧ ChatApp.header c = User.username bob
     ∧ ChatApp.messages c = [from_alice].
Proof.
  intros p3.
  destruct (late_history_response_wins chat_loaded
              (ChatApp.mk (useAuth.mk (lit "tok1") None) [alice; bob]
                 (Some alice) [] [])
              1 0 alice bob
              (mkRequest (ApiMessagesOf 5) GET
                 (useAuth.headers (lit "tok1")) None)
              true true [from_alice] [])
    as (Hs & _ & _); try reflexivity; [discriminate |].
  eexists. split; [exact Hs |]. by split.
Defined.

(** X9.  A fetch of the chat view that is rejected (the contact list, a
    history or a send) is dropped without any trace on the page: what is
    displayed, the text being typed, the storage and the other fetches in
    flight stay as they are, and nothing is issued again. *)
Theorem rejected_chat_fetch_changes_nothing
    (p : Page) (c : ChatApp.t) (i : nat) (req : Request) (k : Cont)
    (msg : jsstring) :
  reachable p →
  screen p = ChatAppOf c →
  inflight p !! i = Some (req, k) →
  step p (Settle i (Rejected msg))
  = mkPage (localStorage p) (app p) (ChatAppOf c) (delete i (inflight p))
      (sent p)
  ∧ issued p (Settle i (Rejected msg)) = [].
Proof.
  intros Hp Hs Hi.
  assert (step p (Settle i (Rejected msg))
          = mkPage (localStorage p) (app p) (ChatAppOf c)
              (delete i (inflight p)) (sent p)) as Hstep.
  { destruct (reachable_inv p Hp) as [_ Hown].
    rewrite Forall_lookup in Hown. specialize (Hown _ _ Hi).
    rewrite Hs in Hown. unfold step, settle. rewrite Hi, Hs.
    by destruct k. }
  split; [done |]. apply issued_nil. by rewrite Hstep.
Qed.

Lemma rejected_chat_fetch_changes_nothing_witness :
  let p := run chat_loaded [ChangeText (lit "hi"); SubmitSend] in
  ∃ c, screen (step p (Settle 1 (Rejected (lit "Failed to fetch"))))
       = ChatAppOf c
     ∧ ChatApp.text c = lit "hi"
     ∧ ChatApp.messages c = [].
Proof.
  intros p.
  destruct (rejected_chat_fetch_changes_nothing p
              (ChatApp.mk (useAuth.mk (lit "tok1") None) [alice; bob]
                 (Some alice) [] (lit "hi"))
              1
              (mkRequest ApiMessages POST (useAuth.headers (lit "tok1"))
                 (Some (JObj [("receiverId", JNum 5);
                              ("message", JStr (lit "hi"))])))
              AwaitSent (lit "Failed to fetch"))
    as [Hstep _].
  - apply reachable_run, reachable_run, reachable_boot.
  - reflexivity.
  - reflexivity.
  - eexists. split; [exact (f_equal screen Hstep) |]. by split.
Defined.

Lemma change_text_page (q : Page) (c : ChatApp.t) (v : jsstring) :
  screen q = ChatAppOf c →
  step q (ChangeText v)
  = mkPage (localStorage q) (app q) (ChatAppOf (ChatApp.setText v c))
      (inflight q) (sent q).
Proof.
  intros Hs. unfold step. rewrite Hs. unfold update_chat.
  assert (ChatApp.effects (Some c) (ChatApp.setText v c) = []) as ->.
  { unfold ChatApp.effects. simpl. by rewrite !decide_True. }
  by rewrite issue_nil.
Qed.

Lemma settle_send_page (q : Page) (c : ChatApp.t) (i : nat)
    (req : Request) (ok : bool) (msg : Message.t) :
  screen q = ChatAppOf c →
  inflight q !! i = Some (req, AwaitSent) →
  step q (Settle i (Resolved ok (DMessage msg)))
  = mkPage (localStorage q) (app q)
      (ChatAppOf (ChatApp.send_resume msg c))
      (delete i (inflight q)) (sent q).
Proof.
  intros Hs Hi. unfold step, settle. rewrite Hi, Hs. unfold update_chat.
  assert (ChatApp.effects (Some c) (ChatApp.send_resume msg c) = []) as ->.
  { unfold ChatApp.effects. simpl. by rewrite !decide_True. }
  by rewrite issue_nil.
Qed.

(** X10.  The response to a send empties the text input whatever it holds
    by then: a text typed while the send is in flight is discarded when the
    response arrives, together with the appending of the created message. *)
Theorem send_response_discards_typed_text
    (p : Page) (c : ChatApp.t) (u : User.t) (v : jsstring)
    (ok : bool) (msg : Message.t) :
  screen p = ChatAppOf c →
  ¬ blank (ChatApp.text c) →
  ChatApp.activeUser c = Some u →
  let p3 := run p [SubmitSend; ChangeText v;
                   Settle (length (inflight p))
                     (Resolved ok (DMessage msg))] in
  ∃ c3, screen p3 = ChatAppOf c3
      ∧ ChatApp.text c3 = []
      ∧ ChatApp.messages c3 = ChatApp.messages c ++ [msg]
      ∧ ChatApp.activeUser c3 = Some u
      ∧ inflight p3 = inflight p.
Proof.
  intros Hs Htext Hu p3. subst p3.
  change (run p ?es) with (foldl step p es). cbn [foldl].
  set (req := mkRequest ApiMessages POST (ChatApp.headers c)
                (Some (JObj [("receiverId", JNum (User.id u));
                             ("message", JStr (ChatApp.text c))]))).
  assert (step p SubmitSend = issue [(req, AwaitSent)] p) as ->.
  { unfold step. by rewrite Hs, (send_valid c u). }
  rewrite (change_text_page _ c v) by done. cbn [issue localStorage app
    inflight sent].
  rewrite (settle_send_page _ (ChatApp.setText v c) (length (inflight p))
             req ok msg); [|done|].
  2:{ cbn [inflight]. rewrite lookup_app_r by done.
      by rewrite Nat.sub_diag. }
  cbn [inflight]. rewrite delete_last_app. eexists. by repeat split.
Qed.

Lemma send_response_discards_typed_text_witness :
  let p := run chat_loaded
             [Settle 0 (Resolved true (DMessages [])); ChangeText (lit " hi ")] in
  ∃ c3, screen (run p [SubmitSend; ChangeText (lit "more");
                       Settle 0 (Resolved true (DMessage to_alice))])
        = ChatAppOf c3
      ∧ ChatApp.text c3 = []
      ∧ ChatApp.messages c3 = [to_alice].
Proof.
  intros p.
  destruct (send_response_discards_typed_text p
              (ChatApp.mk (useAuth.mk (lit "tok1") None) [alice; bob]
                 (Some alice) [] (lit " hi "))
              alice (lit "more") true to_alice)
    as (c3 & Hs & Htext & Hmsgs & _).
  - reflexivity.
  - intros Hblank. apply trim_nil in Hblank. discriminate Hblank.
  - reflexivity.
  - by exists c3.
Defined.

(** ** The contact list *)

Lemma awaiting_users (p : Page) (c : ChatApp.t) (i : nat) (req : Request)
    (cl : option User.t) :
  reachable p →
  screen p = ChatAppOf c →
  inflight p !! i = Some (req, AwaitUsers cl) →
  cl = None ∧ ChatApp.users c = [] ∧ ChatApp.activeUser c = None
  ∧ pending_users (delete i (inflight p)) = 0.
Proof.
  intros Hp Hs Hi.
  destruct (reachable_inv p Hp) as [_ Hown].
  pose proof (reachable_widgets p Hp) as Hw. unfold widgets_ok in Hw.
  rewrite Hs in Hw. destruct Hw as (Hle & Hone & Hact).
  rewrite Forall_lookup in Hown. specialize (Hown _ _ Hi).
  rewrite Hs in Hown. simpl in Hown.
  pose proof (pending_users_delete _ _ _ _ Hi) as Hdel. simpl in Hdel.
  assert (ChatApp.users c = []) as Hnil by (apply Hone; lia).
  repeat split; try done.
  - by destruct cl.
  - destruct (ChatApp.activeUser c) as [u|] eqn:Hu; [|done].
    specialize (Hact u eq_refl). rewrite Hnil in Hact.
    by apply elem_of_nil in Hact.
  - lia.
Qed.

(** X11.  The active contact is always one of the contacts displayed in
    the list. *)
Theorem active_contact_is_listed (p : Page) (c : ChatApp.t) (u : User.t) :
  reachable p →
  screen p = ChatAppOf c →
  ChatApp.activeUser c = Some u →
  u ∈ ChatApp.users c.
Proof.
  intros Hp Hs Hu. pose proof (reachable_widgets p Hp) as Hw.
  unfold widgets_ok in Hw. rewrite Hs in Hw. by apply Hw.
Qed.

Lemma active_contact_is_listed_witness :
  let p := run chat_loaded [ClickContact 1; ClickLogout; ClickContact 0] in
  alice ∈ [alice; bob].
Proof.
  intros p.
  apply (active_contact_is_listed p
           (ChatApp.mk (useAuth.mk [] None) [alice; bob] (Some alice) [] [])
           alice).
  - apply reachable_run, reachable_run, reachable_boot.
  - reflexivity.
  - reflexivity.
Defined.

(** X12.  The answer to the contact-list fetch is displayed as it is.  An
    empty list selects nobody and issues nothing.  A list that is not empty
    makes its first contact the active one and, when the session still has
    its token, issues exactly one request: the history of that contact, with
    the session headers; after a logout it issues nothing. *)
Theorem contacts_response_opens_first_conversation
    (p : Page) (c : ChatApp.t) (i : nat) (req : Request)
    (cl : option User.t) (ok : bool) (data : list User.t) :
  reachable p →
  screen p = ChatAppOf c →
  inflight p !! i = Some (req, AwaitUsers cl) →
  let e := Settle i (Resolved ok (DUsers data)) in
  match data with
  | [] =>
      screen (step p e) = ChatAppOf (ChatApp.setUsers [] c)
      ∧ ChatApp.activeUser c = None
      ∧ issued p e = []
  | first :: _ =>
      screen (step p e)
      = ChatAppOf (ChatApp.setActiveUser (Some first)
                     (ChatApp.setUsers data c))
      ∧ issued p e
        = if truthy (ChatApp.token c)
          then [mkRequest (ApiMessagesOf (User.id first)) GET
                  (ChatApp.headers c) None]
          else []
  end.
Proof.
  intros Hp Hs Hi e.
  destruct (awaiting_users p c i req cl Hp Hs Hi) as (-> & _ & Hnone & _).
  subst e. destruct data as [|first rest].
  - assert (step p (Settle i (Resolved ok (DUsers [])))
            = mkPage (localStorage p) (app p)
                (ChatAppOf (ChatApp.setUsers [] c))
                (delete i (inflight p)) (sent p)) as Hstep.
    { unfold step, settle. rewrite Hi, Hs.
      unfold update_chat, ChatApp.loadUsers_resume.
      assert (ChatApp.effects (Some c) (ChatApp.setUsers [] c) = []) as ->.
      { unfold ChatApp.effects. simpl. by rewrite !decide_True. }
      by rewrite issue_nil. }
    repeat split; try done; [by rewrite Hstep |].
    apply issued_nil. by rewrite Hstep.
  - set (c' := ChatApp.setActiveUser (Some first)
                 (ChatApp.setUsers (first :: rest) c)).
    assert (step p (Settle i (Resolved ok (DUsers (first :: rest))))
            = issue (ChatApp.load c')
                (mkPage (localStorage p) (app p) (ChatAppOf c')
                   (delete i (inflight p)) (sent p))) as Hstep.
    { unfold step, settle. rewrite Hi, Hs.
      unfold update_chat, ChatApp.loadUsers_resume. fold c'.
      assert (ChatApp.effects (Some c) c' = ChatApp.load c') as ->; [|done].
      unfold ChatApp.effects. rewrite decide_True by done.
      rewrite decide_False; [done |]. rewrite Hnone. by intros [_ ?]. }
    split; [by rewrite Hstep |].
    apply issued_app. rewrite Hstep. unfold issue, ChatApp.load. simpl.
    unfold ChatApp.token, ChatApp.headers, ChatApp.token. simpl.
    by destruct (truthy (useAuth.token (ChatApp.auth c))).
Qed.

Lemma contacts_response_opens_first_conversation_witness :
  let p := boot {[ "token" := lit "tok1" ]} in
  issued p (Settle 0 (Resolved true (DUsers [alice; bob])))
  = [mkRequest (ApiMessagesOf 5) GET (useAuth.headers (lit "tok1")) None]
  ∧ issued (step p ClickLogout) (Settle 0 (Resolved true (DUsers [alice; bob])))
    = [].
Proof.
  intros p. split.
  - apply (contacts_response_opens_first_conversation p
             (ChatApp.mk (useAuth.mk (lit "tok1") None) [] None [] [])
             0 (mkRequest ApiUsers GET ∅ None) None true [alice; bob]).
    + apply reachable_boot.
    + reflexivity.
    + reflexivity.
  - apply (contacts_response_opens_first_conversation (step p ClickLogout)
             (ChatApp.mk (useAuth.mk [] None) [] None [] [])
             0 (mkRequest ApiUsers GET ∅ None) None true [alice; bob]).
    + apply reachable_step, reachable_boot.
    + reflexivity.
    + reflexivity.
Defined.

Lemma users_step (p : Page) (e : Event) (c : ChatApp.t) :
  inv p →
  screen p = ChatAppOf c →
  pending_users (inflight p) = 0 →
  e ≠ Reload →
  ∃ c', screen (step p e) = ChatAppOf c'
      ∧ ChatApp.users c' = ChatApp.users c
      ∧ pending_users (inflight (step p e)) = 0.
Proof.
  intros Hinv Hs Hzero He.
  assert (∀ c', ChatApp.users c' = ChatApp.users c →
            ChatApp.token c' = ChatApp.token c ∨ ChatApp.token c' = [] →
            ∀ q, pending_users (inflight q) = 0 →
            ∃ c'', screen (update_chat c c' q) = ChatAppOf c''
                 ∧ ChatApp.users c'' = ChatApp.users c
                 ∧ pending_users (inflight (update_chat c c' q)) = 0)
    as Hupd.
  { intros c' Husers Htok q Hq. exists c'. split; [done |]. split; [done |].
    unfold update_chat, issue. cbn [inflight].
    by rewrite pending_users_app, pending_users_effects, Hq. }
  destruct e; try done; unfold step; rewrite ?Hs;
    try (by exists c; rewrite ?Hs).
  - (* ClickLogout *)
    unfold useAuth.logout. cbv beta iota. apply Hupd; try done. by right.
  - (* ClickContact *)
    apply Hupd; try done.
    + unfold ChatApp.click. by destruct (ChatApp.users c !! i).
    + left. apply click_token.
  - (* ChangeText *)
    apply Hupd; try done. by left.
  - (* SubmitSend *)
    destruct (ChatApp.send c) as [[req k]|] eqn:Hsend; [|by exists c].
    exists c. split; [exact Hs |]. split; [done |].
    assert (k = AwaitSent) as ->.
    { unfold ChatApp.send in Hsend.
      destruct (ChatApp.activeUser c); [|done].
      destruct (negb _); [done |]. by injection Hsend as <- <-. }
    unfold issue. cbn [inflight]. by rewrite pending_users_app, Hzero.
  - (* Settle *)
    unfold settle.
    destruct (inflight p !! i) as [[req k]|] eqn:Hi; [|by exists c].
    pose proof (pending_users_delete _ _ _ _ Hi) as Hdel.
    rewrite Hs.
    assert (pending_users (delete i (inflight p)) = 0) as Hzero' by lia.
    destruct k; try (by exists c); simpl in Hdel; try lia;
      destruct res as [msg|ok [t|data|l|m]]; try (by exists c);
      try (by eexists; split; [done |]; split);
      (apply Hupd; [done | by left | done]).
Qed.

Lemma run_keeps_users (p : Page) (c : ChatApp.t) (es : list Event) :
  reachable p →
  screen p = ChatAppOf c →
  pending_users (inflight p) = 0 →
  Reload ∉ es →
  ∃ c', screen (run p es) = ChatAppOf c'
      ∧ ChatApp.users c' = ChatApp.users c.
Proof.
  intros Hp. revert p c Hp.
  induction es as [|e es IH]; intros p c Hp Hs Hzero Hes; [by exists c |].
  apply not_elem_of_cons in Hes as [He Hes].
  destruct (users_step p e c) as (c1 & Hs1 & Hu1 & Hz1);
    [by apply reachable_inv | done | done | congruence |].
  destruct (IH (step p e) c1) as (c' & Hs' & Hu');
    [by constructor | done | done | done |].
  exists c'. split; [done | congruence].
Qed.

(** X13.  The contact list is written once: when no contact-list fetch is
    in flight any more, nothing that happens before the next page load
    changes the contacts displayed, as long as every response has the shape
    that its endpoint promises. *)
Theorem contact_list_fixed_once_loaded
    (p : Page) (c : ChatApp.t) (es : list Event) :
  conforming p →
  runs_on_contract p es = true →
  screen p = ChatAppOf c →
  pending_users (inflight p) = 0 →
  Reload ∉ es →
  conforming (run p es)
  ∧ ∃ c', screen (run p es) = ChatAppOf c'
        ∧ ChatApp.users c' = ChatApp.users c.
Proof.
  intros Hp Hok Hs Hzero Hes. split; [by apply conforming_run |].
  apply run_keeps_users; try done. by apply conforming_reachable.
Qed.

Lemma contact_list_fixed_once_loaded_witness :
  ∃ c', screen (run chat_loaded
                  [ClickContact 1; ChangeText (lit "hi"); SubmitSend;
                   Settle 2 (Resolved true (DMessage to_alice));
                   ClickLogout])
        = ChatAppOf c'
      ∧ ChatApp.users c' = [alice; bob].
Proof.
  apply (contact_list_fixed_once_loaded chat_loaded
           (ChatApp.mk (useAuth.mk (lit "tok1") None) [alice; bob]
              (Some alice) [] [])).
  - apply (conforming_run (boot {[ "token" := lit "tok1" ]})
             [Settle 0 (Resolved true (DUsers [alice; bob]))]);
      [apply conforming_boot | reflexivity].
  - reflexivity.
  - reflexivity.
  - reflexivity.
  - intros Hin. repeat (apply elem_of_cons in Hin as [Hin|Hin]; [done |]).
    by apply elem_of_nil in Hin.
Defined.

(** ** The form, the tokens and the traffic *)

(** X14.  The form of the auth screen is busy only while one of its
    submissions is in flight. *)
Theorem busy_form_has_a_submission_in_flight (p : Page) (a : AuthScreen.t) :
  reachable p →
  screen p = AuthScreenOf a →
  AuthScreen.loading a = true →
  ∃ i req k, inflight p !! i = Some (req, k)
           ∧ (k = AwaitLogin ∨ k = AwaitRegister).
Proof.
  intros Hp Hs Hload.
  destruct (reachable_inv p Hp) as [_ Hown].
  pose proof (reachable_widgets p Hp) as Hw. unfold widgets_ok in Hw.
  rewrite Hs in Hw, Hown. specialize (Hw Hload).
  destruct (inflight p) as [|[req k] l]; [done |].
  exists 0, req, k. split; [done |].
  apply Forall_cons in Hown as [Hk _]. simpl in Hk.
  destruct k; try done; [by left | by right].
Qed.

Lemma busy_form_has_a_submission_in_flight_witness :
  ∃ i req k, inflight login_submitted !! i = Some (req, k)
           ∧ (k = AwaitLogin ∨ k = AwaitRegister).
Proof.
  apply (busy_form_has_a_submission_in_flight login_submitted
           (AuthScreen.mk ModeLogin [] (lit "a@b.com") (lit "x") true []
              (useAuth.mk [] None))).
  - apply reachable_run, reachable_boot.
  - reflexivity.
  - reflexivity.
Defined.

(** X15.  While the chat view is mounted, the token that [App] reads is not
    empty and [ready] is set, even after a logout; the token of [ChatApp]
    itself is the stored token, or is empty when nothing is stored.  While
    the auth screen is mounted, the token that [App] reads is empty, even
    after an accepted login. *)
Theorem tokens_of_the_mounted_screen (p : Page) :
  reachable p →
  match screen p with
  | AuthScreenOf _ => App.token (app p) = []
  | ChatAppOf c =>
      App.token (app p) ≠ []
      ∧ App.ready (app p) = true
      ∧ localStorage p !! "token"
        = if truthy (ChatApp.token c) then Some (ChatApp.token c) else None
  end.
Proof.
  intros Hp. destruct (reachable_inv p Hp) as [Hscr _].
  unfold screen_ok in Hscr. destruct (screen p) as [a|c]; [done |].
  destruct Hscr as [Hview Hls]. repeat split; try done.
  - unfold App.render in Hview. intros Htok. rewrite Htok in Hview.
    by destruct (App.ready (app p)).
  - unfold App.render in Hview. by destruct (App.ready (app p)).
Qed.

Lemma tokens_of_the_mounted_screen_witness :
  let p := step chat_loaded ClickLogout in
  App.token (app p) = lit "tok1"
  ∧ localStorage p !! "token" = None
  ∧ is_ChatApp (screen p) = true.
Proof.
  intros p.
  pose proof (tokens_of_the_mounted_screen p) as H.
  change (screen p)
    with (ChatAppOf (ChatApp.mk (useAuth.mk [] None) [alice; bob]
                       (Some alice) [] [])) in H.
  cbv iota in H. destruct H as (_ & _ & Hls).
  - apply reachable_step, reachable_run, reachable_boot.
  - by repeat split.
Defined.

(** X16.  No event makes the page issue more than one request. *)
Theorem at_most_one_request_per_event (p : Page) (e : Event) :
  reachable p → length (issued p e) ≤ 1.
Proof.
  intros Hp.
  assert (e = Reload ∨ e ≠ Reload) as [->|He] by (destruct e; auto).
  - rewrite (issued_app _ _ (sent (boot (localStorage p)))) by done.
    rewrite boot_sent. destruct (truthy _); simpl; lia.
  - destruct (step_sent p e (reachable_inv p Hp) He) as (new & Hsent & Hnew).
    rewrite (issued_app _ _ _ Hsent).
    destruct Hnew as [->|(r & -> & _)]; simpl; lia.
Qed.

Lemma at_most_one_request_per_event_witness :
  length (issued chat_loaded (ClickContact 1)) ≤ 1.
Proof.
  apply (at_most_one_request_per_event chat_loaded).
  apply reachable_run, reachable_boot.
Defined.
